(** * routish: route tables, trie navigation and URL rendering

    A shallow embedding of the runtime of [src/index.ts] and [src/parser.ts]
    (the route trie builder, the navigation proxies, named lookup, the parser
    adapter and the URL serializer), followed by the properties the
    specification states about them.

    Modelling conventions.
    - A JavaScript string is modelled by the sequence of its UTF-8 bytes
      ([string]); the separators the code looks for (['/'], [':'], ['$']) are
      ASCII, so splitting and searching agree with the source.
    - A JavaScript value of type [unknown] is a [JsVal]: undefined, null,
      booleans, numbers, strings and plain objects.  A number is a safe
      integer (below [2^53] in absolute value), which [String] prints in
      decimal digits; exponent notation starts at [1e21].  A plain object
      used as a record is the list of its own entries in the engine's
      iteration order ([Object.entries]); assignment to a property keeps
      that order (array indices first, then keys by creation).  Properties
      of primitives (the indices and [length] of a string) are not modelled:
      the typed interface only passes records where entries are read.
    - [node.children] (an object used as a dictionary) is a [gmap];
      [namedRoutes] (a [Map]) is a [gmap] too.
    - Plain objects inherit the properties of [Object.prototype]
      ([inheritedNames]), all of them built-in functions except
      [__proto__].  The values of the model do not include functions.  The
      [get] traps are modelled on inherited names as well: there
      [tree.children[prop]] is the inherited built-in and the trap raises.
      Where the code looks a key up in another plain object (a segment in
      [node.children] while the trie is built, a parameter name in
      [config.params], a key of a parser map in the validated record), the
      embedding reads own properties; it agrees with the code for keys
      that are not inherited names ([plainTable], [plainKeys],
      [letsPass]).
    - A thrown [Error] is [Throw msg]; a normal return is [Ok v].  The code
      throws plain [Error]s; the kinds of error the specification names are
      told apart by their messages.  An error raised by the engine is a
      [Throw] whose message begins with [TypeError]. *)

From Stdlib Require Import ZArith String Ascii List Bool Lia DecimalString.
From stdpp Require Import base option gmap strings list.

Set Warnings "-register-all".
Local Open Scope string_scope.

(* ================================================================== *)
(** ** Results of computations that may throw *)
(* ================================================================== *)

Inductive Result (A : Type) : Type :=
| Ok (a : A)
| Throw (msg : string).
Arguments Ok {A} a.
Arguments Throw {A} msg.

Definition bindR {A B} (r : Result A) (k : A -> Result B) : Result B :=
  match r with
  | Ok a => k a
  | Throw m => Throw m
  end.

#[global] Instance Result_bind : MBind Result := fun A B k r => bindR r k.
#[global] Instance Result_ret : MRet Result := fun A a => Ok a.

(* ================================================================== *)
(** ** The fragment of JavaScript the program relies on *)
(* ================================================================== *)

Module JS.

(** *** Strings *)

Definition chr_slash : ascii := "/"%char.
Definition chr_colon : ascii := ":"%char.
Definition chr_dollar : ascii := "$"%char.
Definition chr_quote : ascii := "034"%char.

(** A text between double quotes. *)
Definition quoted (s : string) : string :=
  String chr_quote (s +:+ String chr_quote EmptyString).

(** [s.split(c)] for a one-character separator: never returns the empty
    list; ["".split(c)] is [[""]]. *)
Fixpoint split (c : ascii) (s : string) : list string :=
  match s with
  | EmptyString => [EmptyString]
  | String a rest =>
      if Ascii.eqb a c then EmptyString :: split c rest
      else match split c rest with
           | h :: t => String a h :: t
           | [] => [String a EmptyString]
           end
  end.

(** [Boolean(s)] for a string: non-empty. *)
Definition truthy_string (s : string) : bool :=
  match s with
  | EmptyString => false
  | String _ _ => true
  end.

(** [l.join(sep)]. *)
Fixpoint join (sep : string) (l : list string) : string :=
  match l with
  | [] => EmptyString
  | [x] => x
  | x :: rest => x +:+ sep +:+ join sep rest
  end.

(** [s.startsWith(p)]. *)
Fixpoint startsWith (s p : string) {struct p} : bool :=
  match p, s with
  | EmptyString, _ => true
  | String b p', String a s' => Ascii.eqb a b && startsWith s' p'
  | String _ _, EmptyString => false
  end.

(** [s.endsWith(c)] for a one-character suffix. *)
Fixpoint endsWithChar (s : string) (c : ascii) : bool :=
  match s with
  | EmptyString => false
  | String a EmptyString => Ascii.eqb a c
  | String _ rest => endsWithChar rest c
  end.

(** [s.slice(1)]. *)
Definition slice1 (s : string) : string :=
  match s with
  | EmptyString => EmptyString
  | String _ rest => rest
  end.

Fixpoint drop (n : nat) (s : string) : string :=
  match n, s with
  | O, _ => s
  | S n', String _ rest => drop n' rest
  | S _, EmptyString => EmptyString
  end.

(** First occurrence of [needle] in [s]: the text before it and the text
    after it ([s.indexOf(needle)] together with the two slices). *)
Fixpoint findFirst (needle s : string) : option (string * string) :=
  if startsWith s needle then Some (EmptyString, drop (String.length needle) s)
  else match s with
       | EmptyString => None
       | String a rest =>
           match findFirst needle rest with
           | Some (before, after) => Some (String a before, after)
           | None => None
           end
       end.

Definition isDigit (a : ascii) : bool :=
  let n := nat_of_ascii a in (48 <=? n)%nat && (n <=? 57)%nat.

(** ECMAScript [GetSubstitution] for a string pattern (no capture groups):
    in the replacement text [$$] stands for a dollar sign, [$&] for the
    matched text, [$`] for the text before the match and [$'] for the text
    after it; every other use of [$] is literal. *)
Fixpoint getSubstitution (matched before after rep : string) : string :=
  match rep with
  | EmptyString => EmptyString
  | String a rest =>
      if Ascii.eqb a chr_dollar then
        match rest with
        | String b rest' =>
            if Ascii.eqb b "$"%char then
              String chr_dollar (getSubstitution matched before after rest')
            else if Ascii.eqb b "&"%char then
              matched +:+ getSubstitution matched before after rest'
            else if Ascii.eqb b "`"%char then
              before +:+ getSubstitution matched before after rest'
            else if Ascii.eqb b "'"%char then
              after +:+ getSubstitution matched before after rest'
            else String a (getSubstitution matched before after rest)
        | EmptyString => String a EmptyString
        end
      else String a (getSubstitution matched before after rest)
  end.

(** [s.replace(needle, rep)] with a string pattern: only the first
    occurrence is replaced. *)
Definition replace (s needle rep : string) : string :=
  match findFirst needle s with
  | Some (before, after) =>
      before +:+ getSubstitution needle before after rep +:+ after
  | None => s
  end.

(** [s.includes(needle)] *)
Definition includes (s needle : string) : bool :=
  match findFirst needle s with
  | Some _ => true
  | None => false
  end.

(** *** Values *)

Inductive JsVal : Type :=
| VUndefined
| VNull
| VBool (b : bool)
| VNumber (z : Z)
| VString (s : string)
| VObject (fields : list (string * JsVal)).

(** A record: the own entries of a plain object, in iteration order. *)
Abbreviation Record_ := (list (string * JsVal)).

Inductive TypeOf := TUndefined | TObject | TBoolean | TNumber | TString.

Definition typeof (v : JsVal) : TypeOf :=
  match v with
  | VUndefined => TUndefined
  | VNull => TObject
  | VBool _ => TBoolean
  | VNumber _ => TNumber
  | VString _ => TString
  | VObject _ => TObject
  end.

(** [Boolean(v)]. *)
Definition truthy (v : JsVal) : bool :=
  match v with
  | VUndefined | VNull => false
  | VBool b => b
  | VNumber z => negb (z =? 0)%Z
  | VString s => truthy_string s
  | VObject _ => true
  end.

Definition string_of_Z (z : Z) : string :=
  NilZero.string_of_int (Z.to_int z).

(** [String(v)], for the values the typed interface passes: a number is
    printed in decimal digits, as the engine prints the safe integers, and
    an object as a plain object without a [toString] of its own. *)
Definition String_ (v : JsVal) : string :=
  match v with
  | VUndefined => "undefined"
  | VNull => "null"
  | VBool true => "true"
  | VBool false => "false"
  | VNumber z => string_of_Z z
  | VString s => s
  | VObject _ => "[object Object]"
  end.

(** *** Records: own properties in iteration order

    The own string keys of an object are enumerated with the array indices
    first, in ascending numeric order, and then the other keys in the order
    in which they were created. *)

Fixpoint parseDigits (s : string) (acc : N) : option N :=
  match s with
  | EmptyString => Some acc
  | String a rest =>
      if isDigit a then parseDigits rest (acc * 10 + N.of_nat (nat_of_ascii a - 48))
      else None
  end.

Definition string_of_N (n : N) : string := NilZero.string_of_uint (N.to_uint n).

(** An array index is the canonical decimal numeral of a number below
    [2^32 - 1]. *)
Definition arrayIndex (k : string) : option N :=
  match k with
  | EmptyString => None
  | String _ _ =>
      match parseDigits k 0 with
      | Some n =>
          if String.eqb (string_of_N n) k && (n <? 4294967295)%N then Some n else None
      | None => None
      end
  end.

Section Entries.
Context {V : Type}.

(** [o[k]] on the own properties. *)
Fixpoint assoc (k : string) (o : list (string * V)) : option V :=
  match o with
  | [] => None
  | (k', v) :: rest => if String.eqb k' k then Some v else assoc k rest
  end.

(** [k in o] *)
Definition has_key (k : string) (o : list (string * V)) : bool :=
  match assoc k o with Some _ => true | None => false end.

(** Writing an existing property leaves it in its place. *)
Fixpoint update (k : string) (v : V) (o : list (string * V)) : list (string * V) :=
  match o with
  | [] => []
  | (k', v') :: rest =>
      if String.eqb k' k then (k', v) :: rest else (k', v') :: update k v rest
  end.

(** A new array index goes before the first key that is no array index or
    a greater one. *)
Fixpoint place (n : N) (k : string) (v : V) (o : list (string * V)) : list (string * V) :=
  match o with
  | [] => [(k, v)]
  | (k', v') :: rest =>
      match arrayIndex k' with
      | Some n' => if (n <? n')%N then (k, v) :: o else (k', v') :: place n k v rest
      | None => (k, v) :: o
      end
  end.

(** Creating a property: an array index is placed among the indices, any
    other key goes last. *)
Definition create (k : string) (v : V) (o : list (string * V)) : list (string * V) :=
  match arrayIndex k with
  | Some n => place n k v o
  | None => (o ++ [(k, v)])%list
  end.

(** [o[k] = v] *)
Definition assign (k : string) (v : V) (o : list (string * V)) : list (string * V) :=
  if has_key k o then update k v o else create k v o.
End Entries.

(** [o[k]] for a value [o]: undefined when the property is missing or [o]
    is a primitive. *)
Definition get (o : JsVal) (k : string) : JsVal :=
  match o with
  | VObject fs => match assoc k fs with Some v => v | None => VUndefined end
  | _ => VUndefined
  end.

(** [Object.entries(v)] / [Object.keys(v)]: the program applies them to
    query records; a primitive is taken to have no entries. *)
Definition entries (v : JsVal) : Record_ :=
  match v with
  | VObject fs => fs
  | _ => []
  end.

Definition keys (v : JsVal) : list string := map fst (entries v).

(** The property names every plain object inherits from [Object.prototype].
    Their values are built-in functions, and [Object.prototype] itself for
    [__proto__]: none of them is [null] or [undefined], and none has a
    property [children]. *)
Definition inheritedNames : list string :=
  ["constructor"; "hasOwnProperty"; "isPrototypeOf"; "propertyIsEnumerable";
   "toLocaleString"; "toString"; "valueOf"; "__proto__";
   "__defineGetter__"; "__defineSetter__"; "__lookupGetter__"; "__lookupSetter__"].

Definition isInherited (name : string) : bool :=
  existsb (String.eqb name) inheritedNames.

(** *** [URLSearchParams.prototype.toString]: the
    application/x-www-form-urlencoded serializer *)

Definition hexDigit (n : nat) : ascii :=
  if (n <? 10)%nat then ascii_of_nat (48 + n) else ascii_of_nat (55 + n).

Definition isAlnum (a : ascii) : bool :=
  let n := nat_of_ascii a in
  ((48 <=? n) && (n <=? 57) || (65 <=? n) && (n <=? 90) || (97 <=? n) && (n <=? 122))%nat.

Definition urlencodeByte (a : ascii) : string :=
  if isAlnum a then String a EmptyString
  else if Ascii.eqb a "*"%char || Ascii.eqb a "-"%char
          || Ascii.eqb a "."%char || Ascii.eqb a "_"%char
  then String a EmptyString
  else if Ascii.eqb a " "%char then "+"
  else let n := nat_of_ascii a in
       String "%"%char (String (hexDigit (n / 16)) (String (hexDigit (n mod 16)) EmptyString)).

Fixpoint urlencode (s : string) : string :=
  match s with
  | EmptyString => EmptyString
  | String a rest => urlencodeByte a +:+ urlencode rest
  end.

Definition URLSearchParams_toString (pairs : list (string * string)) : string :=
  join "&" (map (fun kv => urlencode (fst kv) +:+ "=" +:+ urlencode (snd kv)) pairs).

(** *** [JSON.stringify] *)

Definition jsonEscapeByte (a : ascii) : string :=
  let n := nat_of_ascii a in
  if Ascii.eqb a chr_quote then String "\"%char (String chr_quote EmptyString)
  else if Ascii.eqb a "\"%char then "\\"
  else if (n =? 8)%nat then "\b"
  else if (n =? 9)%nat then "\t"
  else if (n =? 10)%nat then "\n"
  else if (n =? 12)%nat then "\f"
  else if (n =? 13)%nat then "\r"
  else if (n <? 32)%nat then
    "\u00" +:+ String (hexDigit (n / 16)) (String (ascii_of_nat
      (let d := n mod 16 in if (d <? 10)%nat then 48 + d else 87 + d)) EmptyString)
  else String a EmptyString.

Fixpoint jsonEscape (s : string) : string :=
  match s with
  | EmptyString => EmptyString
  | String a rest => jsonEscapeByte a +:+ jsonEscape rest
  end.

Definition jsonQuote (s : string) : string := quoted (jsonEscape s).

(** [None] stands for the result [undefined]. *)
Fixpoint JSON_stringify (v : JsVal) : option string :=
  match v with
  | VUndefined => None
  | VNull => Some "null"
  | VBool true => Some "true"
  | VBool false => Some "false"
  | VNumber z => Some (string_of_Z z)
  | VString s => Some (jsonQuote s)
  | VObject fs =>
      let members :=
        (fix go (l : list (string * JsVal)) : list string :=
           match l with
           | [] => []
           | (k, x) :: rest =>
               match JSON_stringify x with
               | Some t => (jsonQuote k +:+ ":" +:+ t) :: go rest
               | None => go rest
               end
           end) fs in
      Some ("{" +:+ join "," members +:+ "}")
  end.

(** A value interpolated in a template literal: [`${x}`]. *)
Definition template_of (o : option string) : string :=
  match o with
  | Some s => s
  | None => "undefined"
  end.

End JS.

(* ================================================================== *)
(** ** parser.ts: the parser adapter *)
(* ================================================================== *)

Module Parser.
Import JS.

(** A JavaScript function of one argument. *)
Definition JsFunction := JsVal -> Result JsVal.

(** A property of a parser object: a function, or some other value. *)
Inductive Property :=
| PropFunction (f : JsFunction)
| PropValue (v : JsVal).

(** A parser is recognised by its shape: a function, or an object with
    properties. *)
Inductive Parser :=
| ParserFunction (f : JsFunction)
| ParserObject (props : list (string * Property)).

Abbreviation ParserMap := (list (string * Parser)).

(** ['m' in parser && typeof parser.m === 'function'] *)
Definition method (props : list (string * Property)) (m : string) : option JsFunction :=
  match assoc m props with
  | Some (PropFunction f) => Some f
  | _ => None
  end.

Definition invalid_parser_message : string :=
  "Invalid parser: must be a function or have .parse(), .validateSync(), or .decode() method".

(** Reading [result._tag] of a decode result. *)
Definition readTag (result : JsVal) : Result JsVal :=
  match result with
  | VUndefined => Throw "TypeError: Cannot read properties of undefined (reading '_tag')"
  | VNull => Throw "TypeError: Cannot read properties of null (reading '_tag')"
  | _ => Ok (get result "_tag")
  end.

Definition decode_failed (left : JsVal) : string :=
  "Decode failed: " +:+ template_of (JSON_stringify left).

Definition runParser (parser : Parser) (value : JsVal) : Result JsVal :=
  match parser with
  | ParserFunction f => f value
  | ParserObject props =>
      match method props "parse" with
      | Some parse => parse value
      | None =>
          match method props "validateSync" with
          | Some validateSync => validateSync value
          | None =>
              match method props "decode" with
              | Some decode =>
                  result ← decode value;
                  tag ← readTag result;
                  match tag with
                  | VString "Right" => Ok (get result "right")
                  | _ => Throw (decode_failed (get result "left"))
                  end
              | None => Throw invalid_parser_message
              end
          end
      end
  end.

Definition in_operator_message (key : string) : string :=
  "TypeError: Cannot use 'in' operator to search for '" +:+ key +:+ "'".

(** The loop of the combined parser over [Object.entries(parserMap)], with
    the record [result] built so far.  [key in obj] and [obj[key]] are read
    on the own entries of the record: for a key that the record lacks and
    [Object.prototype] provides, the code validates the inherited built-in,
    a function, which is no value of the model.  The same holds for
    [result[key] = ...] under the key [__proto__], which sets no own
    property. *)
Fixpoint parseEntries (es : ParserMap) (obj : JsVal) (result : Record_) : Result Record_ :=
  match es with
  | [] => Ok result
  | (key, parser) :: rest =>
      match obj with
      | VObject fs =>
          if has_key key fs then
            v ← runParser parser (get obj key);
            parseEntries rest obj (assign key v result)
          else parseEntries rest obj result
      | _ => Throw (in_operator_message key)
      end
  end.

Definition objectParse (parserMap : ParserMap) : JsFunction :=
  fun obj => result ← parseEntries parserMap obj []; Ok (VObject result).

Definition createObjectParser (parserMap : ParserMap) : Parser :=
  ParserObject [("parse", PropFunction (objectParse parserMap))].

End Parser.

(* ================================================================== *)
(** ** index.ts: route tables *)
(* ================================================================== *)

Module Routish.
Import JS Parser.

(** *** types.ts *)

Abbreviation Meta := Record_.

Record RoutishOptions := { trailingSlash : option bool }.

Module RouteConfig.
Record t := mk {
  path : string;
  query : option ParserMap;
  params : option ParserMap;
  name : option string;
  meta : option Meta }.
End RouteConfig.

Inductive RouteDefinition :=
| DefPath (p : string)
| DefConfig (c : RouteConfig.t).

Module RouteInfo.
Record t := mk { pattern : string; name : option string; meta : option Meta }.
End RouteInfo.

(** A param segment takes its name from [paramNode.paramName], which is
    [null] on a node that was not created by a parametric segment. *)
Inductive Segment :=
| SegStatic (name : string)
| SegParam (name : option string) (value : string).

Module TreeNode.
Inductive t := mk {
  children : gmap string t;
  paramName : option string;
  paramParser : option Parser;
  queryParser : option Parser;
  meta : option Meta;
  isTerminal : bool }.

Definition with_children (c : gmap string t) (n : t) : t :=
  mk c (paramName n) (paramParser n) (queryParser n) (meta n) (isTerminal n).
Definition with_paramParser (p : option Parser) (n : t) : t :=
  mk (children n) (paramName n) p (queryParser n) (meta n) (isTerminal n).
Definition with_queryParser (p : option Parser) (n : t) : t :=
  mk (children n) (paramName n) (paramParser n) p (meta n) (isTerminal n).
Definition with_meta (m : option Meta) (n : t) : t :=
  mk (children n) (paramName n) (paramParser n) (queryParser n) m (isTerminal n).
Definition with_isTerminal (b : bool) (n : t) : t :=
  mk (children n) (paramName n) (paramParser n) (queryParser n) (meta n) b.
End TreeNode.

Module NamedRoute.
Record t := mk {
  pattern : string;
  paramNames : list string;
  paramParser : option Parser;
  queryParser : option Parser;
  meta : option Meta;
  options : RoutishOptions }.
End NamedRoute.

(** *** Tree building *)

Definition PARAM_KEY : string := "$param".

(** [typeof def === 'string' ? { path: def } : def] *)
Definition configOf (def : RouteDefinition) : RouteConfig.t :=
  match def with
  | DefPath p => RouteConfig.mk p None None None None
  | DefConfig c => c
  end.

(** [path.split('/').filter(Boolean)] *)
Definition pathSegments (path : string) : list string :=
  List.filter truthy_string (split chr_slash path).

Definition isParamSegment (seg : string) : bool := startsWith seg ":".

(** [config.params?.[name]], read on the own entries of [params]: the names
    of parameters are taken not to be inherited names (for those the code
    finds the built-in of [Object.prototype]). *)
Definition paramParserOf (config : RouteConfig.t) (name : string) : option Parser :=
  match RouteConfig.params config with
  | Some pm => assoc name pm
  | None => None
  end.

Definition newNode (paramName : option string) : TreeNode.t :=
  TreeNode.mk ∅ paramName None None None false.

(** The three statements that close a definition: mark the node terminal and
    attach the definition's query parser and meta when it has them. *)
Definition markTerminal (config : RouteConfig.t) (node : TreeNode.t) : TreeNode.t :=
  let node := TreeNode.with_isTerminal true node in
  let node := match RouteConfig.query config with
              | Some q => TreeNode.with_queryParser (Some (createObjectParser q)) node
              | None => node
              end in
  match RouteConfig.meta config with
  | Some m => TreeNode.with_meta (Some m) node
  | None => node
  end.

(** The inner loop [for (const seg of segments)] followed by the marking of
    the final node, as the update of the subtree rooted at [node].
    [node.children[key] ??= ...] is read on the own entries of [children]:
    the keys are taken not to be inherited names.  (For an inherited name the
    code finds the built-in, creates no node and goes on with the built-in
    in the place of the node.) *)
Fixpoint insertSegments (config : RouteConfig.t) (segments : list string)
    (node : TreeNode.t) : TreeNode.t :=
  match segments with
  | [] => markTerminal config node
  | seg :: rest =>
      let isParam := isParamSegment seg in
      let key := if isParam then PARAM_KEY else seg in
      let paramName := if isParam then Some (slice1 seg) else None in
      (* node.children[key] ??= { ... } *)
      let child := match TreeNode.children node !! key with
                   | Some c => c
                   | None => newNode paramName
                   end in
      let child := if isParam then
                     match paramParserOf config (slice1 seg) with
                     | Some p => TreeNode.with_paramParser (Some p) child
                     | None => child
                     end
                   else child in
      TreeNode.with_children
        (<[key := insertSegments config rest child]> (TreeNode.children node)) node
  end.

(** One iteration of [for (const def of definitions)]. *)
Definition addDefinition (root : TreeNode.t) (def : RouteDefinition) : TreeNode.t :=
  let config := configOf def in
  let segments := pathSegments (RouteConfig.path config) in
  match segments with
  | [] => markTerminal config root
  | _ :: _ => insertSegments config segments root
  end.

Definition buildTree (definitions : list RouteDefinition) : TreeNode.t :=
  fold_left addDefinition definitions (newNode None).

(** *** Registries *)

(** The loop over the segments of a named definition: the ordered parameter
    names and the map of the parsers declared for them. *)
Fixpoint collectParams (config : RouteConfig.t) (segments : list string)
    (paramNames : list string) (paramParsers : ParserMap) : list string * ParserMap :=
  match segments with
  | [] => (paramNames, paramParsers)
  | seg :: rest =>
      if isParamSegment seg then
        let name := slice1 seg in
        let paramParsers := match paramParserOf config name with
                            | Some p => assign name p paramParsers
                            | None => paramParsers
                            end in
        collectParams config rest (paramNames ++ [name])%list paramParsers
      else collectParams config rest paramNames paramParsers
  end.

Definition namedRouteOf (def : RouteConfig.t) (options : RoutishOptions) : NamedRoute.t :=
  let '(paramNames, paramParsers) :=
    collectParams def (pathSegments (RouteConfig.path def)) [] [] in
  NamedRoute.mk
    (RouteConfig.path def)
    paramNames
    (match paramParsers with
     | [] => None
     | _ :: _ => Some (createObjectParser paramParsers)
     end)
    (match RouteConfig.query def with
     | Some q => Some (createObjectParser q)
     | None => None
     end)
    (RouteConfig.meta def)
    options.

Definition addNamedRoute (options : RoutishOptions) (named : gmap string NamedRoute.t)
    (def : RouteDefinition) : gmap string NamedRoute.t :=
  match def with
  | DefPath _ => named
  | DefConfig c =>
      match RouteConfig.name c with
      | Some n => if truthy_string n then <[n := namedRouteOf c options]> named else named
      | None => named
      end
  end.

Definition buildNamedRoutes (definitions : list RouteDefinition) (options : RoutishOptions)
    : gmap string NamedRoute.t :=
  fold_left (addNamedRoute options) definitions ∅.

Definition buildAllRoutes (definitions : list RouteDefinition) : list RouteInfo.t :=
  map (fun def =>
         match def with
         | DefPath p => RouteInfo.mk p None None
         | DefConfig c =>
             RouteInfo.mk (RouteConfig.path c) (RouteConfig.name c) (RouteConfig.meta c)
         end) definitions.

(** *** Serialization *)

Definition segmentValue (s : Segment) : string :=
  match s with
  | SegStatic name => name
  | SegParam _ value => value
  end.

Definition segmentPattern (s : Segment) : string :=
  match s with
  | SegStatic name => name
  | SegParam name _ => ":" +:+ match name with Some n => n | None => "null" end
  end.

(** [new URLSearchParams(Object.entries(query).map(([k, v]) => [k, String(v)])).toString()] *)
Definition queryString (query : JsVal) : string :=
  URLSearchParams_toString (map (fun kv => (fst kv, String_ (snd kv))) (entries query)).

(** [!query || Object.keys(query).length === 0] *)
Definition noQuery (query : JsVal) : bool :=
  negb (truthy query) || (length (keys query) =? 0)%nat.

Definition buildPath (segments : list Segment) (query : JsVal) (trailingSlash : bool) : string :=
  let path := "/" +:+ join "/" (map segmentValue segments)
                  +:+ (if trailingSlash then "/" else "") in
  if noQuery query then path
  else path +:+ "?" +:+ queryString query.

Definition buildPattern (segments : list Segment) (trailingSlash : bool) : string :=
  "/" +:+ join "/" (map segmentPattern segments) +:+ (if trailingSlash then "/" else "").

(** *** Route nodes and proxies *)

(** The plain object returned by [createRouteNode] and by
    [getRouteByName]; its two render functions never throw. *)
Record RouteNode := mkRouteNode {
  __segments : list Segment;
  __query : JsVal;
  getMeta : option Meta;
  toString : string;
  toPattern : string }.

Definition createRouteNode (segments : list Segment) (query : JsVal)
    (meta : option Meta) (trailingSlash : bool) : RouteNode :=
  mkRouteNode segments query meta
    (buildPath segments query trailingSlash)
    (buildPattern segments trailingSlash).

(** A navigation proxy is determined by the arguments [createProxy] closes
    over. *)
Record Proxy := createProxy {
  segments : list Segment;
  query : JsVal;
  tree : TreeNode.t;
  options : RoutishOptions;
  meta : option Meta }.

(** The root proxy closes over the tree and the options. *)
Record RootProxy := createRootProxy {
  rootTree : TreeNode.t;
  rootOptions : RoutishOptions }.

(** [Symbol.toStringTag], the symbol [ROUTE_METADATA] of types.ts, and any
    other symbol. *)
Inductive Symbol := SymToStringTag | SymRouteMetadata | SymOther.

(** types.ts: [ROUTE_METADATA = Symbol('routish.metadata')] *)
Definition ROUTE_METADATA : Symbol := SymRouteMetadata.

Inductive PropertyKey :=
| PropName (s : string)
| PropSymbol (y : Symbol).

(** What a [get] trap hands back, or the error it raises.  A function that
    takes no argument is represented by what calling it does. *)
Inductive Got :=
| GotSegments (s : list Segment)
| GotQuery (q : JsVal)
| GotGetMeta (call : option Meta)
| GotToString (call : Result string)
| GotToPattern (call : Result string)
| GotUndefined
| GotProxy (p : Proxy)
| GotIndex (r : RootProxy)
| GotThrow (msg : string).

Definition trailingSlashOf (options : RoutishOptions) : bool :=
  match trailingSlash options with
  | Some b => b
  | None => false
  end.

Definition paramNodeOf (tree : TreeNode.t) : option TreeNode.t :=
  TreeNode.children tree !! PARAM_KEY.

(** [tree.children[prop] ?? paramNode?.children[prop]] for a name that is
    not inherited: the own entries decide.  The traps deal with inherited
    names before they come here. *)
Definition childFor (tree : TreeNode.t) (prop : string) : option TreeNode.t :=
  match TreeNode.children tree !! prop with
  | Some c => Some c
  | None =>
      match paramNodeOf tree with
      | Some paramNode => TreeNode.children paramNode !! prop
      | None => None
      end
  end.

Definition not_a_route_message (pattern : string) : string :=
  quoted pattern +:+ " is not a defined route. Did you forget to add it to createRoutes()?".

Definition root_not_defined_message : string :=
  quoted "/" +:+ " is not a defined route. Define it explicitly: createRoutes(['/', ...])".

Definition root_toString_message : string :=
  "Cannot call toString() on routes directly. Use routes.$index for the root route.".

Definition root_toPattern_message : string :=
  "Cannot call toPattern() on routes directly. Use routes.$index for the root route.".

(** [createProxy] begins with [tree.children['$param']]; on a value without
    a property [children] that read raises. *)
Definition not_a_node_message : string :=
  "TypeError: Cannot read properties of undefined (reading '$param')".

(** The call of the value branch, shared by both proxies: run the parameter
    parser, append the param segment, validate the query, move to the
    parametric child. *)
Definition callParam (segments : list Segment) (paramNode : TreeNode.t)
    (options : RoutishOptions) (valueOrQuery maybeQuery : JsVal) : Result Proxy :=
  value ← match TreeNode.paramParser paramNode with
          | Some p => runParser p valueOrQuery
          | None => Ok valueOrQuery
          end;
  let newSegments := (segments ++ [SegParam (TreeNode.paramName paramNode) (String_ value)])%list in
  validated ← match truthy maybeQuery, TreeNode.queryParser paramNode with
              | true, Some q => runParser q maybeQuery
              | _, _ => Ok maybeQuery
              end;
  Ok (createProxy newSegments validated paramNode options (TreeNode.meta paramNode)).

Definition isStringOrNumber (v : JsVal) : bool :=
  match typeof v with
  | TString | TNumber => true
  | _ => false
  end.

(** [fn] of [createProxy]: the [apply] behaviour of a navigation proxy. *)
Definition Proxy_call (p : Proxy) (valueOrQuery maybeQuery : JsVal) : Result Proxy :=
  match typeof valueOrQuery with
  | TObject =>
      validated ← match TreeNode.queryParser (tree p) with
                  | Some q => runParser q valueOrQuery
                  | None => Ok valueOrQuery
                  end;
      Ok (createProxy (segments p) validated (tree p) (options p) (TreeNode.meta (tree p)))
  | _ =>
      match paramNodeOf (tree p) with
      | Some paramNode =>
          if isStringOrNumber valueOrQuery
          then callParam (segments p) paramNode (options p) valueOrQuery maybeQuery
          else Throw "Invalid arguments"
      | None => Throw "Invalid arguments"
      end
  end.

Definition Proxy_toString (p : Proxy) : Result string :=
  if negb (TreeNode.isTerminal (tree p))
  then Throw (not_a_route_message (buildPattern (segments p) false))
  else Ok (buildPath (segments p) (query p) (trailingSlashOf (options p))).

Definition Proxy_toPattern (p : Proxy) : Result string :=
  if negb (TreeNode.isTerminal (tree p))
  then Throw (not_a_route_message (buildPattern (segments p) false))
  else Ok (buildPattern (segments p) (trailingSlashOf (options p))).

(** [prop === 'name'] *)
Definition isName (prop : PropertyKey) (name : string) : bool :=
  match prop with
  | PropName s => String.eqb s name
  | PropSymbol _ => false
  end.

(** [prop === Symbol.toStringTag] *)
Definition isToStringTag (prop : PropertyKey) : bool :=
  match prop with
  | PropSymbol SymToStringTag => true
  | _ => false
  end.

(** The [get] trap of [createProxy]. *)
Definition Proxy_get (p : Proxy) (prop : PropertyKey) : Got :=
  if isName prop "__segments" then GotSegments (segments p)
  else if isName prop "__query" then GotQuery (query p)
  else if isName prop "getMeta" then
    GotGetMeta (match meta p with Some m => Some m | None => TreeNode.meta (tree p) end)
  else if isName prop "toString" || isToStringTag prop then GotToString (Proxy_toString p)
  else if isName prop "toPattern" then GotToPattern (Proxy_toPattern p)
  else if isName prop "then" then GotUndefined
  else match prop with
       | PropSymbol _ => GotUndefined
       | PropName prop =>
           (* [tree.children[prop]] of an inherited name is the built-in of
              [Object.prototype]: it is not nullish, so it is the [child], and
              [createProxy(..., child, ...)] raises on it *)
           if isInherited prop then GotThrow not_a_node_message
           else
             match childFor (tree p) prop with
             | Some child =>
                 GotProxy (createProxy (segments p ++ [SegStatic prop])%list VUndefined child
                             (options p) (TreeNode.meta child))
             | None => GotUndefined
             end
       end.

(** [createIndexNode] of [createRootProxy]. *)
Definition createIndexNode (r : RootProxy) (query : JsVal) : Result RouteNode :=
  validated ← match truthy query, TreeNode.queryParser (rootTree r) with
              | true, Some q => runParser q query
              | _, _ => Ok query
              end;
  Ok (createRouteNode [] validated (TreeNode.meta (rootTree r))
        (trailingSlashOf (rootOptions r))).

(** [fn] of [createRootProxy]. *)
Definition Root_call (r : RootProxy) (valueOrQuery maybeQuery : JsVal)
    : Result (RouteNode + Proxy) :=
  match typeof valueOrQuery with
  | TObject => n ← createIndexNode r valueOrQuery; Ok (inl n)
  | _ =>
      match paramNodeOf (rootTree r) with
      | Some paramNode =>
          if isStringOrNumber valueOrQuery
          then p ← callParam [] paramNode (rootOptions r) valueOrQuery maybeQuery; Ok (inr p)
          else Throw "Invalid arguments"
      | None => Throw "Invalid arguments"
      end
  end.

(** [indexFn]: calling [routes.$index(query)]. *)
Definition Index_call (r : RootProxy) (query : JsVal) : Result RouteNode :=
  createIndexNode r query.

Definition Index_toString (r : RootProxy) : Result string :=
  if negb (TreeNode.isTerminal (rootTree r))
  then Throw root_not_defined_message
  else Ok (buildPath [] VUndefined (trailingSlashOf (rootOptions r))).

Definition Index_toPattern (r : RootProxy) : Result string :=
  if negb (TreeNode.isTerminal (rootTree r))
  then Throw root_not_defined_message
  else Ok "/".

(** The [get] trap of the proxy behind [routes.$index]. *)
Definition Index_get (r : RootProxy) (indexProp : PropertyKey) : Got :=
  if isName indexProp "__segments" then GotSegments []
  else if isName indexProp "__query" then GotQuery VUndefined
  else if isName indexProp "getMeta" then GotGetMeta (TreeNode.meta (rootTree r))
  else if isName indexProp "toString" || isToStringTag indexProp
  then GotToString (Index_toString r)
  else if isName indexProp "toPattern" then GotToPattern (Index_toPattern r)
  else GotUndefined.

(** The [get] trap of [createRootProxy]. *)
Definition Root_get (r : RootProxy) (prop : PropertyKey) : Got :=
  if isName prop "$index" then GotIndex r
  else if isName prop "__segments" then GotSegments []
  else if isName prop "__query" then GotQuery VUndefined
  else if isName prop "getMeta" then GotGetMeta (TreeNode.meta (rootTree r))
  else if isName prop "toString" || isToStringTag prop
  then GotToString (Throw root_toString_message)
  else if isName prop "toPattern" then GotToPattern (Throw root_toPattern_message)
  else if isName prop "then" then GotUndefined
  else match prop with
       | PropSymbol _ => GotUndefined
       | PropName prop =>
           if isInherited prop then GotThrow not_a_node_message
           else
             match childFor (rootTree r) prop with
             | Some child =>
                 GotProxy (createProxy [SegStatic prop] VUndefined child
                             (rootOptions r) (TreeNode.meta child))
             | None => GotUndefined
             end
       end.

(** *** Public API *)

(** The record that [createRoutes] stores under [ROUTE_METADATA]. *)
Record RouteMetadata := mkRouteMetadata {
  definitions : list RouteDefinition;
  namedRoutes : gmap string NamedRoute.t;
  allRoutes : list RouteInfo.t }.

(** An own data property of an object, with its attributes. *)
Record DataProperty := mkDataProperty {
  stored : RouteMetadata;
  writable : bool;
  enumerable : bool;
  configurable : bool }.

(** The value of [createRoutes]: the root proxy, and the property that
    [Object.defineProperty(proxy, ROUTE_METADATA, ...)] defines on the
    proxy's target (the proxy has no [defineProperty] trap). *)
Record RouteTree := mkRouteTree {
  proxy : RootProxy;
  metadata : DataProperty }.

Definition createRoutes (definitions : list RouteDefinition) (options : RoutishOptions)
    : RouteTree :=
  let tree := buildTree definitions in
  let namedRoutes := buildNamedRoutes definitions options in
  let allRoutes := buildAllRoutes definitions in
  mkRouteTree (createRootProxy tree options)
    (* { value: ..., enumerable: false, writable: false }; an attribute the
       descriptor leaves out, here [configurable], is [false] *)
    {| stored := mkRouteMetadata definitions namedRoutes allRoutes;
       writable := false;
       enumerable := false;
       configurable := false |}.

Definition proxy_get_invariant_message : string :=
  "TypeError: 'get' on proxy: property 'Symbol(routish.metadata)' is a read-only and "
  +:+ "non-configurable data property on the proxy target but the proxy did not return "
  +:+ "its actual value".

Definition undefined_read_message (field : string) : string :=
  "TypeError: Cannot read properties of undefined (reading '" +:+ field +:+ "')".

(** [routes[ROUTE_METADATA].field].  [routes] is the root proxy, so the read
    of [ROUTE_METADATA] calls its [get] trap.  When the trap has answered,
    the proxy checks the answer against its target (ECMAScript, the [[Get]]
    of a proxy): for an own data property of the target that is neither
    configurable nor writable, an answer other than the stored value raises
    a [TypeError].  A trap answers with [undefined], an array, a function or
    a proxy ([Got]), never with the stored record, and for this key with
    [undefined]: where the check lets the answer pass, the read of [field]
    raises on it. *)
Definition readMetadata (routes : RouteTree) (field : string) : Result RouteMetadata :=
  match Root_get (proxy routes) (PropSymbol ROUTE_METADATA) with
  | GotThrow msg => Throw msg
  | _ =>
      if negb (configurable (metadata routes)) && negb (writable (metadata routes))
      then Throw proxy_get_invariant_message
      else Throw (undefined_read_message field)
  end.

Definition route_not_found_message (name : string) : string :=
  "Route " +:+ quoted name +:+ " not found".

(** [params ?? {}] *)
Definition orEmptyRecord (params : JsVal) : JsVal :=
  match params with
  | VUndefined | VNull => VObject []
  | _ => params
  end.

(** The loop [for (const p of route.paramNames) path = path.replace(...)]. *)
Definition substituteParams (pattern : string) (paramNames : list string)
    (resolvedParams : JsVal) : string :=
  fold_left (fun path p => replace path (":" +:+ p) (String_ (get resolvedParams p)))
    paramNames pattern.

Definition getRouteByName (routes : RouteTree) (name : string) (params query : JsVal)
    : Result RouteNode :=
  metadata ← readMetadata routes "namedRoutes";
  match namedRoutes metadata !! name with
  | None => Throw (route_not_found_message name)
  | Some route =>
      let resolvedParams := orEmptyRecord params in
      let resolvedQuery := query in
      resolvedParams ← match NamedRoute.paramParser route with
                       | Some p => runParser p resolvedParams
                       | None => Ok resolvedParams
                       end;
      resolvedQuery ← match truthy resolvedQuery, NamedRoute.queryParser route with
                      | true, Some q => runParser q resolvedQuery
                      | _, _ => Ok resolvedQuery
                      end;
      let path := substituteParams (NamedRoute.pattern route)
                    (NamedRoute.paramNames route) resolvedParams in
      let path := if trailingSlashOf (NamedRoute.options route)
                     && negb (endsWithChar path chr_slash)
                  then path +:+ "/" else path in
      let path := if truthy resolvedQuery && (0 <? length (keys resolvedQuery))%nat
                  then path +:+ "?" +:+ queryString resolvedQuery else path in
      Ok (mkRouteNode [] resolvedQuery (NamedRoute.meta route) path
            (NamedRoute.pattern route))
  end.

Definition getAllRoutes (routes : RouteTree) : Result (list RouteInfo.t) :=
  metadata ← readMetadata routes "allRoutes";
  Ok (allRoutes metadata).

End Routish.

(* ================================================================== *)
(** * Vocabulary of the statements *)
(* ================================================================== *)

Import JS Parser Routish.

(** ** Positions in the trie *)

(** The key under which a segment is stored: the sentinel for a parametric
    segment, the segment itself otherwise. *)
Definition keyOf (seg : string) : string :=
  if isParamSegment seg then PARAM_KEY else seg.

Definition routeSegments (def : RouteDefinition) : list string :=
  pathSegments (RouteConfig.path (configOf def)).

Definition routeKeys (def : RouteDefinition) : list string :=
  map keyOf (routeSegments def).

(** The node reached from [t] by following the keys [ks]. *)
Fixpoint walk (ks : list string) (t : TreeNode.t) : option TreeNode.t :=
  match ks with
  | [] => Some t
  | k :: ks' =>
      match TreeNode.children t !! k with
      | Some c => walk ks' c
      | None => None
      end
  end.

(** The segment with which a definition's segment list arrives at the
    position [ks], if it passes there. *)
Fixpoint segmentAt (segs ks : list string) : option string :=
  match segs, ks with
  | seg :: rest, k :: ks' =>
      if String.eqb (keyOf seg) k then
        match ks' with
        | [] => Some seg
        | _ :: _ => segmentAt rest ks'
        end
      else None
  | _, _ => None
  end.

(** The parameter name a segment gives to a node it creates. *)
Definition declaredName (seg : string) : option string :=
  if isParamSegment seg then Some (slice1 seg) else None.

(** The validator a definition attaches when it enters a node through [seg]. *)
Definition declaredParser (config : RouteConfig.t) (seg : string) : option Parser :=
  if isParamSegment seg then paramParserOf config (slice1 seg) else None.

(** The child node a definition works on after the step [seg] of its walk:
    the existing child under the segment's key or a fresh node, with the
    definition's validator for the segment attached. *)
Definition enterChild (config : RouteConfig.t) (seg : string) (node : TreeNode.t)
    : TreeNode.t :=
  let child := match TreeNode.children node !! keyOf seg with
               | Some c => c
               | None => newNode (declaredName seg)
               end in
  match declaredParser config seg with
  | Some p => TreeNode.with_paramParser (Some p) child
  | None => child
  end.

(** The first and the last defined entry of a list. *)
Fixpoint firstSome {A} (l : list (option A)) : option A :=
  match l with
  | [] => None
  | Some a :: _ => Some a
  | None :: rest => firstSome rest
  end.

Fixpoint lastSome {A} (l : list (option A)) : option A :=
  match l with
  | [] => None
  | o :: rest =>
      match lastSome rest with
      | Some a => Some a
      | None => o
      end
  end.

(** The segment with which a definition arrives at a position. *)
Definition arrivesWith (pos : list string) (def : RouteDefinition) : option string :=
  segmentAt (routeSegments def) pos.

(** ** Navigation *)

(** The keys by which a static descent moves: to a static child when there is
    one, and otherwise through the parametric child to one of its children. *)
Definition staticStep (t : TreeNode.t) (prop : string) : list string :=
  match TreeNode.children t !! prop with
  | Some _ => [prop]
  | None => [PARAM_KEY; prop]
  end.

(** [Reaches r ks p]: the navigation proxy [p] is obtained from the root
    proxy [r] by property accesses and calls, and stands at position [ks]. *)
Inductive Reaches (r : RootProxy) : list string -> Proxy -> Prop :=
| reaches_root_get prop p :
    Root_get r (PropName prop) = GotProxy p ->
    Reaches r (staticStep (rootTree r) prop) p
| reaches_root_call v q p :
    Root_call r v q = Ok (inr p) ->
    Reaches r [PARAM_KEY] p
| reaches_get ks p0 prop p :
    Reaches r ks p0 ->
    Proxy_get p0 (PropName prop) = GotProxy p ->
    Reaches r (ks ++ staticStep (tree p0) prop)%list p
| reaches_call_query ks p0 q q' p :
    Reaches r ks p0 ->
    typeof q = TObject ->
    Proxy_call p0 q q' = Ok p ->
    Reaches r ks p
| reaches_call_value ks p0 v q p :
    Reaches r ks p0 ->
    typeof v <> TObject ->
    Proxy_call p0 v q = Ok p ->
    Reaches r (ks ++ [PARAM_KEY])%list p.

(** The text a step of a navigation adds to the pattern attempted so far:
    the name of a property access, and for a call with a value the colon
    with the parameter name of the node under the sentinel key at the
    position [pos] of the call (the text [null] when that node has none). *)
Definition paramText (root : TreeNode.t) (pos : list string) : string :=
  ":" +:+ match walk (pos ++ [PARAM_KEY])%list root ≫= TreeNode.paramName with
          | Some name => name
          | None => "null"
          end.

(** [Navigated r ks trail p]: as [Reaches r ks p], with the texts of the
    steps taken from the root.  A call with a query takes no step. *)
Inductive Navigated (r : RootProxy) : list string -> list string -> Proxy -> Prop :=
| navigated_root_get prop p :
    Root_get r (PropName prop) = GotProxy p ->
    Navigated r (staticStep (rootTree r) prop) [prop] p
| navigated_root_call v q p :
    Root_call r v q = Ok (inr p) ->
    Navigated r [PARAM_KEY] [paramText (rootTree r) []] p
| navigated_get ks trail p0 prop p :
    Navigated r ks trail p0 ->
    Proxy_get p0 (PropName prop) = GotProxy p ->
    Navigated r (ks ++ staticStep (tree p0) prop)%list (trail ++ [prop])%list p
| navigated_call_query ks trail p0 q q' p :
    Navigated r ks trail p0 ->
    typeof q = TObject ->
    Proxy_call p0 q q' = Ok p ->
    Navigated r ks trail p
| navigated_call_value ks trail p0 v q p :
    Navigated r ks trail p0 ->
    typeof v <> TObject ->
    Proxy_call p0 v q = Ok p ->
    Navigated r (ks ++ [PARAM_KEY])%list (trail ++ [paramText (rootTree r) ks])%list p.


(** The property names the [get] traps answer themselves. *)
Definition interceptedNames : list string :=
  ["__segments"; "__query"; "getMeta"; "toString"; "toPattern"; "then"].

(** A table that keeps clear of the names plain objects inherit: no static
    segment and no parameter name of a definition is one of them. *)
Definition plainSegment (seg : string) : bool :=
  negb (isInherited (if isParamSegment seg then slice1 seg else seg)).

Definition plainDefinition (def : RouteDefinition) : bool :=
  forallb plainSegment (routeSegments def).

Definition plainTable (defs : list RouteDefinition) : bool :=
  forallb plainDefinition defs.

(** A parser map that keeps clear of them: no key is one of them. *)
Definition plainKeys (pm : option ParserMap) : bool :=
  match pm with
  | Some entries => forallb (fun e => negb (isInherited (fst e))) entries
  | None => true
  end.

Definition opts (trailing : option bool) : RoutishOptions :=
  {| trailingSlash := trailing |}.

(** Descending by static names, one property access per name. *)
Fixpoint descendFrom (p : Proxy) (names : list string) : option Proxy :=
  match names with
  | [] => Some p
  | name :: rest =>
      match Proxy_get p (PropName name) with
      | GotProxy p' => descendFrom p' rest
      | _ => None
      end
  end.

Definition descend (r : RootProxy) (names : list string) : option Proxy :=
  match names with
  | [] => None
  | name :: rest =>
      match Root_get r (PropName name) with
      | GotProxy p => descendFrom p rest
      | _ => None
      end
  end.

(** ** Texts *)

(** [s] contains the character [c]. *)
Fixpoint hasChar (c : ascii) (s : string) : bool :=
  match s with
  | EmptyString => false
  | String a rest => Ascii.eqb a c || hasChar c rest
  end.

(** A value whose text [String_] gives as the engine does: no object (the
    text of an object depends on its [toString]) and no number beyond the
    safe integers. *)
Definition printable (v : JsVal) : bool :=
  match v with
  | VNumber z => (Z.abs z <? 2 ^ 53)%Z
  | VObject _ => false
  | _ => true
  end.

(** A segment of a pattern with the value of its parameter filled in. *)
Definition fillWith (value : string -> JsVal) (seg : string) : string :=
  if isParamSegment seg then String_ (value (slice1 seg)) else seg.

(** ** Rendering a route by navigation *)

(** Where a navigation stands: still at the root proxy, or at a navigation
    proxy. *)
Inductive Position :=
| AtRoot (r : RootProxy)
| AtProxy (p : Proxy).

Definition not_navigable_message : string :=
  "TypeError: the value reached is not a navigation proxy".

Definition position_get (x : Position) (prop : string) : Got :=
  match x with
  | AtRoot r => Root_get r (PropName prop)
  | AtProxy p => Proxy_get p (PropName prop)
  end.

Definition position_call (x : Position) (v q : JsVal) : Result Proxy :=
  match x with
  | AtRoot r =>
      res ← Root_call r v q;
      match res with
      | inr p => Ok p
      | inl _ => Throw not_navigable_message
      end
  | AtProxy p => Proxy_call p v q
  end.

(** One segment of a route: a parametric segment is a call with the value
    the parameters give under its name; a static segment is a property
    access.  The query [q], when there is one, goes with the call, or is
    passed in a call of its own after a static segment. *)
Definition navigateStep (x : Position) (seg : string) (params q : JsVal) : Result Proxy :=
  if isParamSegment seg then position_call x (get params (slice1 seg)) q
  else match position_get x seg with
       | GotProxy p =>
           match q with
           | VUndefined => Ok p
           | _ => Proxy_call p q VUndefined
           end
       | GotThrow msg => Throw msg
       | _ => Throw not_navigable_message
       end.

(** The segments of a route one after the other; the query goes with the
    last one. *)
Fixpoint navigateFrom (x : Position) (segs : list string) (params query : JsVal)
    : Result Position :=
  match segs with
  | [] => Ok x
  | seg :: rest =>
      p ← navigateStep x seg params
            (match rest with [] => query | _ :: _ => VUndefined end);
      navigateFrom (AtProxy p) rest params query
  end.

(** Rendering where the navigation arrived; the root route is rendered by
    the root accessor. *)
Definition renderAt (x : Position) (query : JsVal) : Result string :=
  match x with
  | AtProxy p => Proxy_toString p
  | AtRoot r =>
      match query with
      | VUndefined => Index_toString r
      | _ => n ← Index_call r query; Ok (toString n)
      end
  end.

Definition navigateAndRender (r : RootProxy) (segs : list string) (params query : JsVal)
    : Result string :=
  x ← navigateFrom (AtRoot r) segs params query;
  renderAt x query.

Definition queryParserOf (c : RouteConfig.t) : option Parser :=
  match RouteConfig.query c with
  | Some q => Some (createObjectParser q)
  | None => None
  end.

(** The parameter names of a configuration, in the order of its path. *)
Definition paramNamesOf (c : RouteConfig.t) : list string :=
  map slice1 (List.filter isParamSegment (pathSegments (RouteConfig.path c))).

(** The parameters [fs] supply the parameter [name] of [c] with a string or a
    number that the validator [c] declares for it, if any, turns into
    [value name]. *)
Definition supplied (c : RouteConfig.t) (fs : Record_) (value : string -> JsVal)
    (name : string) : Prop :=
  exists x,
    assoc name fs = Some x /\ isStringOrNumber x = true /\
    match paramParserOf c name with
    | Some pp => runParser pp x = Ok (value name)
    | None => value name = x
    end.

Definition posTree (x : Position) : TreeNode.t :=
  match x with AtRoot r => rootTree r | AtProxy p => tree p end.

Definition posOptions (x : Position) : RoutishOptions :=
  match x with AtRoot r => rootOptions r | AtProxy p => options p end.

Definition posSegments (x : Position) : list Segment :=
  match x with AtRoot _ => [] | AtProxy p => segments p end.

(** Along the segments [segs] from the node [t], the trie holds the
    validators of the configuration [c] itself: at every parametric step the
    validator [c] declares for that parameter (none if it declares none), and
    at the end the query validator of [c] (none if it declares none). *)
Fixpoint ownValidators (c : RouteConfig.t) (segs : list string) (t : TreeNode.t) : Prop :=
  match segs with
  | [] => TreeNode.queryParser t = queryParserOf c
  | seg :: rest =>
      match TreeNode.children t !! keyOf seg with
      | Some child =>
          (isParamSegment seg = true ->
           TreeNode.paramParser child = paramParserOf c (slice1 seg)) /\
          ownValidators c rest child
      | None => False
      end
  end.

(** ** The shapes of a validator *)

(** The validator object has the operation [m]: a property of that name
    which is a function. *)
Definition exposes (props : list (string * Property)) (m : string) (f : JsFunction) : Prop :=
  assoc m props = Some (PropFunction f).

(** It has no such operation: no property of that name, or one that is not
    a function. *)
Definition lacks (props : list (string * Property)) (m : string) : Prop :=
  forall f, ~ exposes props m f.

(** ** The combined validator *)

(** What a present key of the input contributes to the output. *)
Definition validated (pm : ParserMap) (fs : Record_) (k : string) (v : JsVal) : Prop :=
  exists parser x,
    assoc k pm = Some parser /\ assoc k fs = Some x /\ runParser parser x = Ok v.

(** A failure of the validator of a present key. *)
Definition rejected (pm : ParserMap) (fs : Record_) (msg : string) : Prop :=
  exists k parser x,
    assoc k pm = Some parser /\ assoc k fs = Some x /\ runParser parser x = Throw msg.

(** ** Example route tables *)

Module Example.

Definition default_options : RoutishOptions := opts None.
Definition trailing_options : RoutishOptions := opts (Some true).

(** Only ['/users/:id/posts'] is declared. *)
Definition posts_table : list RouteDefinition := [DefPath "/users/:id/posts"].

Definition nodeAt (pos : list string) (defs : list RouteDefinition) : TreeNode.t :=
  match walk pos (buildTree defs) with
  | Some n => n
  | None => newNode None
  end.

(** The proxy [routes.users] of that table, and [routes.users.posts]. *)
Definition users_proxy : Proxy :=
  createProxy [SegStatic "users"] VUndefined (nodeAt ["users"] posts_table)
    default_options None.

Definition users_posts_proxy : Proxy :=
  createProxy [SegStatic "users"; SegStatic "posts"] VUndefined
    (nodeAt ["users"; PARAM_KEY; "posts"] posts_table) default_options None.






(** Only ['/users/:id/getMeta'] is declared; the proxy [routes.users]. *)
Definition meta_table : list RouteDefinition := [DefPath "/users/:id/getMeta"].

Definition meta_users : Proxy :=
  createProxy [SegStatic "users"] VUndefined (nodeAt ["users"] meta_table)
    default_options None.

(** The same position declared under two parameter names. *)
Definition upper : Parser := ParserFunction (fun v => Ok (VString "UPPER")).
Definition two_names_table : list RouteDefinition :=
  [DefConfig (RouteConfig.mk "/a/:x" None (Some [("x", upper)]) None None);
   DefPath "/a/:y"].

(** A static route declared with a trailing slash. *)
Definition about_config : RouteConfig.t :=
  RouteConfig.mk "/about/" None None (Some "about") None.
Definition about_table : list RouteDefinition := [DefConfig about_config].

Definition identity : Parser := ParserFunction (fun v => Ok v).

(** Static routes. *)
Definition static_table : list RouteDefinition :=
  [DefPath "/"; DefPath "/about"; DefPath "/users/settings/profile"].

(** A record validator and an input for it. *)
Definition search_parsers : ParserMap := [("page", identity); ("q", upper)].
Definition search_input : Record_ := [("q", VString "x"); ("extra", VNumber 1)].

(** A named route with one parameter. *)
Definition user_config : RouteConfig.t :=
  RouteConfig.mk "/users/:userId" None None (Some "user") None.
Definition user_table : list RouteDefinition := [DefConfig user_config].

(** Validators of the four shapes: a function that doubles a number, the
    same behind [parse] and behind [validateSync], and a decoder that tags
    numbers [Right] and everything else [Left]. *)
Definition double : JsFunction :=
  fun v => match v with
           | VNumber z => Ok (VNumber (2 * z))
           | _ => Throw "not a number"
           end.
Definition negate : JsFunction :=
  fun v => match v with
           | VNumber z => Ok (VNumber (- z))
           | _ => Throw "not a number"
           end.
Definition decodeNumber : JsFunction :=
  fun v => match v with
           | VNumber z => Ok (VObject [("_tag", VString "Right"); ("right", v)])
           | _ => Ok (VObject [("_tag", VString "Left"); ("left", VString "no number")])
           end.

(** An object with [parse] and [validateSync]; one whose [parse] is no
    function; one with [decode] only; one with none of the three. *)
Definition both_shapes : list (string * Property) :=
  [("validateSync", PropFunction negate); ("parse", PropFunction double)].
Definition yup_shape : list (string * Property) :=
  [("parse", PropValue (VString "no function")); ("validateSync", PropFunction negate)].
Definition decoder_shape : list (string * Property) :=
  [("decode", PropFunction decodeNumber)].
Definition no_shape : list (string * Property) :=
  [("parse", PropValue VNull); ("check", PropFunction double)].

End Example.

(** ** Vocabulary of the further properties *)

(** The route [def] passes through the position [ks]: its key path begins
    with [ks]. *)
Definition passesThrough (ks : list string) (def : RouteDefinition) : Prop :=
  exists rest, routeKeys def = (ks ++ rest)%list.

(** The key path of [def] ends at the position [pos]. *)
Definition endsAt (pos : list string) (def : RouteDefinition) : bool :=
  bool_decide (routeKeys def = pos).

(** What a definition writes on the node where it ends: its query parser
    and its meta, when it declares them. *)
Definition attachedQuery (pos : list string) (def : RouteDefinition) : option Parser :=
  if endsAt pos def then queryParserOf (configOf def) else None.

Definition attachedMeta (pos : list string) (def : RouteDefinition) : option Meta :=
  if endsAt pos def then RouteConfig.meta (configOf def) else None.

(** The field of the node at [ks] below [node]; none when there is no such
    node. *)
Definition before {A} (field : TreeNode.t -> option A) (ks : list string)
    (node : TreeNode.t) : option A :=
  match walk ks node with
  | Some n0 => field n0
  | None => None
  end.

(** The normal form of a path: a slash, then its segments joined by
    slashes. *)
Definition normalPath (path : string) : string := "/" +:+ join "/" (pathSegments path).

(** A definition with its path rewritten in normal form. *)
Definition normalized (def : RouteDefinition) : RouteDefinition :=
  match def with
  | DefPath p => DefPath (normalPath p)
  | DefConfig c =>
      DefConfig (RouteConfig.mk (normalPath (RouteConfig.path c)) (RouteConfig.query c)
                   (RouteConfig.params c) (RouteConfig.name c) (RouteConfig.meta c))
  end.

(** The registry entry a definition contributes under [name]: bare paths and
    configurations without a name, or with the empty name, contribute
    none. *)
Definition registeredAs (options : RoutishOptions) (name : string) (def : RouteDefinition)
    : option NamedRoute.t :=
  match def with
  | DefPath _ => None
  | DefConfig c =>
      match RouteConfig.name c with
      | Some n =>
          if truthy_string n && String.eqb n name then Some (namedRouteOf c options)
          else None
      | None => None
      end
  end.

(** An entry of a parser map lets the record [fs] pass: the validator
    accepts the value [fs] holds under the key, or [fs] has no property
    under the key, neither of its own nor inherited. *)
Definition letsPass (fs : Record_) (e : string * Parser) : Prop :=
  match assoc (fst e) fs with
  | Some x => exists v, runParser (snd e) x = Ok v
  | None => isInherited (fst e) = false
  end.

(** Along the segments [segs] from the node [t], every parametric node
    carries the name the segment gives it. *)
Fixpoint ownNames (segs : list string) (t : TreeNode.t) : Prop :=
  match segs with
  | [] => True
  | seg :: rest =>
      match TreeNode.children t !! keyOf seg with
      | Some child =>
          (isParamSegment seg = true -> TreeNode.paramName child = Some (slice1 seg)) /\
          ownNames rest child
      | None => False
      end
  end.

(** Every character of [s] satisfies [ok]. *)
Fixpoint allChars (ok : ascii -> bool) (s : string) : bool :=
  match s with
  | EmptyString => true
  | String a rest => ok a && allChars ok rest
  end.

(** The characters the form-urlencoded serializer emits for a name or a
    value, and those of a whole query string. *)
Definition isFormChar (a : ascii) : bool :=
  isAlnum a || Ascii.eqb a "*"%char || Ascii.eqb a "-"%char || Ascii.eqb a "."%char
  || Ascii.eqb a "_"%char || Ascii.eqb a "+"%char || Ascii.eqb a "%"%char.

Definition isQueryChar (a : ascii) : bool :=
  isFormChar a || Ascii.eqb a "="%char || Ascii.eqb a "&"%char.

(** ** Further example tables *)

Module Tables.

Import Example.

(** A validator that rejects every input. *)
Definition reject : Parser := ParserFunction (fun _ => Throw "rejected").

(** A decode-style validator that tags every result [Right]. *)
Definition right_decode : JsFunction :=
  fun v => Ok (VObject [("_tag", VString "Right"); ("right", v)]).
Definition tagged : list (string * Property) := [("decode", PropFunction right_decode)].

(** Routes with a query validator and metadata, the second declaration of
    ['/docs'] bringing neither. *)
Definition docs_meta : Meta := [("title", VString "Docs")].
Definition docs_config : RouteConfig.t :=
  RouteConfig.mk "/docs" (Some [("page", identity)]) None (Some "docs") (Some docs_meta).
Definition docs_table : list RouteDefinition :=
  [DefConfig docs_config; DefPath "/docs/"; DefPath "/docs/:section/edit"].

(** The proxy [routes.docs] of that table. *)
Definition docs_proxy : Proxy :=
  createProxy [SegStatic "docs"] VUndefined (nodeAt ["docs"] docs_table)
    default_options (Some docs_meta).

(** The proxy [routes.docs('intro').edit] of the table of the docs. *)
Definition docs_edit_proxy : Proxy :=
  createProxy [SegStatic "docs"; SegParam (Some "section") "intro"; SegStatic "edit"]
    VUndefined (nodeAt ["docs"; PARAM_KEY; "edit"] docs_table) default_options None.

(** The proxy [routes.docs({ page: 2 })]. *)
Definition docs_page_proxy : Proxy :=
  createProxy [SegStatic "docs"] (VObject [("page", VNumber 2)])
    (nodeAt ["docs"] docs_table) default_options (Some docs_meta).

(** The input of the search validator with another key and another
    order. *)
Definition reordered_input : Record_ := [("other", VBool true); ("q", VString "x")].

(** A parser map whose second validator rejects. *)
Definition strict_parsers : ParserMap := [("page", identity); ("q", reject); ("z", upper)].

End Tables.

(* ================================================================== *)
(** * Properties *)
(* ================================================================== *)

#[local] Arguments String.append !s1 s2 : simpl nomatch.

(** ** Strings *)

Lemma bind_Ok {A B} (a : A) (k : A -> Result B) : mbind k (Ok a) = k a.
Proof. reflexivity. Qed.

Lemma bind_Throw {A B} (msg : string) (k : A -> Result B) : mbind k (Throw msg) = Throw msg.
Proof. reflexivity. Qed.

Section StringFacts.

Lemma append_empty_r (s : string) : s +:+ "" = s.
Proof. induction s as [|a s IH]; simpl; [reflexivity | now rewrite IH]. Qed.

Lemma append_cons (a : ascii) (s t : string) : String a s +:+ t = String a (s +:+ t).
Proof. reflexivity. Qed.

Lemma append_assoc (a b c : string) : (a +:+ b) +:+ c = a +:+ b +:+ c.
Proof. induction a as [|x a IH]; simpl; [reflexivity | now rewrite IH]. Qed.

Lemma startsWith_append (needle rest : string) :
  startsWith (needle +:+ rest) needle = true.
Proof.
  induction needle as [|a n IH]; simpl; [reflexivity |].
  now rewrite Ascii.eqb_refl, IH.
Qed.

Lemma findFirst_unfold (needle s : string) :
  findFirst needle s =
    if startsWith s needle then Some ("", drop (String.length needle) s)
    else match s with
         | "" => None
         | String a rest =>
             match findFirst needle rest with
             | Some (before, after) => Some (String a before, after)
             | None => None
             end
         end.
Proof. destruct s; reflexivity. Qed.

(** A text that contains the needle is found to contain it. *)
Lemma includes_append (pre needle post : string) :
  includes (pre +:+ needle +:+ post) needle = true.
Proof.
  unfold includes. induction pre as [|a pre IH]; simpl "+:+".
  - rewrite findFirst_unfold, startsWith_append. reflexivity.
  - rewrite findFirst_unfold.
    destruct (startsWith _ needle); [reflexivity |].
    destruct (findFirst needle (pre +:+ needle +:+ post)) as [[b a']|]; [reflexivity | discriminate].
Qed.

Lemma hasChar_append c (a b : string) : hasChar c (a +:+ b) = hasChar c a || hasChar c b.
Proof.
  induction a as [|x a IH]; simpl; [reflexivity |].
  rewrite IH. now rewrite orb_assoc.
Qed.

Lemma drop_length_append (needle rest : string) :
  drop (String.length needle) (needle +:+ rest) = rest.
Proof. induction needle as [|a n IH]; simpl; [now destruct rest | exact IH]. Qed.

Lemma startsWith_other_head (a b : ascii) (s n : string) :
  Ascii.eqb a b = false -> startsWith (String a s) (String b n) = false.
Proof. intros H. simpl. now rewrite H. Qed.

(** The first occurrence of a needle that starts with a character the text
    before it does not contain is the occurrence after that text. *)
Lemma findFirst_at (c : ascii) (before nm after : string) :
  hasChar c before = false ->
  findFirst (String c nm) (before +:+ String c nm +:+ after) = Some (before, after).
Proof.
  intros Hb. induction before as [|a before IH].
  - change (findFirst (String c nm) (String c nm +:+ after) = Some ("", after)).
    rewrite findFirst_unfold.
    rewrite (startsWith_append (String c nm) after).
    now rewrite (drop_length_append (String c nm) after).
  - simpl in Hb. apply orb_false_iff in Hb as [Ha Hb].
    change (findFirst (String c nm) (String a (before +:+ String c nm +:+ after)) =
              Some (String a before, after)).
    rewrite findFirst_unfold.
    rewrite startsWith_other_head by exact Ha.
    now rewrite (IH Hb).
Qed.

Lemma getSubstitution_plain (matched before after rep : string) :
  hasChar chr_dollar rep = false -> getSubstitution matched before after rep = rep.
Proof.
  induction rep as [|a rep IH]; [reflexivity |].
  simpl. intros H. apply orb_false_iff in H as [Ha Hrep].
  rewrite Ha. now rewrite (IH Hrep).
Qed.

Lemma replace_at (c : ascii) (before nm after rep : string) :
  hasChar c before = false ->
  hasChar chr_dollar rep = false ->
  replace (before +:+ String c nm +:+ after) (String c nm) rep = before +:+ rep +:+ after.
Proof.
  intros Hb Hrep. unfold replace. rewrite (findFirst_at _ _ _ _ Hb).
  now rewrite getSubstitution_plain.
Qed.

Lemma split_nonempty (c : ascii) (s : string) : split c s <> [].
Proof.
  induction s as [|a s IH]; simpl; [discriminate |].
  destruct (Ascii.eqb a c); [discriminate |].
  now destruct (split c s).
Qed.

Lemma join_cons2 (sep x y : string) (l : list string) :
  join sep (x :: y :: l) = x +:+ sep +:+ join sep (y :: l).
Proof. reflexivity. Qed.

(** Splitting at a separator and joining with it gives the text back. *)
Lemma join_split (c : ascii) (s : string) : join (String c "") (split c s) = s.
Proof.
  induction s as [|a s IH]; [reflexivity |].
  simpl split. destruct (Ascii.eqb_spec a c) as [->|Hne].
  - pose proof (split_nonempty c s) as Hn.
    destruct (split c s) as [|h t]; [contradiction |].
    rewrite join_cons2, IH. reflexivity.
  - pose proof (split_nonempty c s) as Hn.
    destruct (split c s) as [|h t]; [contradiction |].
    destruct t as [|h' t].
    + simpl in *. now rewrite IH.
    + rewrite join_cons2 in *. rewrite append_cons. now rewrite IH.
Qed.

Lemma isParamSegment_shape (seg : string) :
  isParamSegment seg = true -> seg = String chr_colon (slice1 seg).
Proof.
  unfold isParamSegment. destruct seg as [|a seg]; simpl; [discriminate |].
  destruct (Ascii.eqb_spec a ":"%char) as [->|]; [reflexivity | discriminate].
Qed.

End StringFacts.

(** ** The parser adapter *)

Section ParserAdapter.

Lemma readTag_tagged (result : JsVal) (tag : string) :
  get result "_tag" = VString tag -> readTag result = Ok (VString tag).
Proof. destruct result; simpl; intros H; try discriminate; now rewrite H. Qed.

Lemma method_exposes (props : list (string * Property)) (m : string) (f : JsFunction) :
  exposes props m f -> method props m = Some f.
Proof. unfold exposes, method. now intros ->. Qed.

Lemma method_lacks (props : list (string * Property)) (m : string) :
  lacks props m -> method props m = None.
Proof.
  unfold lacks, exposes, method. intros H.
  destruct (assoc m props) as [[f|v]|]; [| reflexivity ..].
  now destruct (H f).
Qed.

(** C4. [runParser] selects the calling convention by the shape of the
    validator, in the order: callable, [parse], [validateSync], [decode].
    A [decode] result tagged [Right] yields its payload, one tagged [Left]
    raises an error whose message includes the serialized failure payload,
    and a validator of none of the four shapes raises the
    unsupported-validator error. *)
Theorem runParser_dispatch (raw : JsVal) :
  (forall f, runParser (ParserFunction f) raw = f raw) /\
  (forall props parse,
      exposes props "parse" parse ->
      runParser (ParserObject props) raw = parse raw) /\
  (forall props validateSync,
      lacks props "parse" ->
      exposes props "validateSync" validateSync ->
      runParser (ParserObject props) raw = validateSync raw) /\
  (forall props decode,
      lacks props "parse" ->
      lacks props "validateSync" ->
      exposes props "decode" decode ->
      (forall result,
          decode raw = Ok result -> get result "_tag" = VString "Right" ->
          runParser (ParserObject props) raw = Ok (get result "right")) /\
      (forall result,
          decode raw = Ok result -> get result "_tag" = VString "Left" ->
          exists msg,
            runParser (ParserObject props) raw = Throw msg /\
            includes msg (template_of (JSON_stringify (get result "left"))) = true) /\
      (forall msg,
          decode raw = Throw msg -> runParser (ParserObject props) raw = Throw msg)) /\
  (forall props,
      lacks props "parse" ->
      lacks props "validateSync" ->
      lacks props "decode" ->
      runParser (ParserObject props) raw = Throw invalid_parser_message).
Proof.
  split; [reflexivity |].
  split; [intros props parse Hp; cbn [runParser]; now rewrite (method_exposes _ _ _ Hp) |].
  split.
  { intros props validateSync Hp Hv. cbn [runParser].
    now rewrite (method_lacks _ _ Hp), (method_exposes _ _ _ Hv). }
  split.
  2:{ intros props Hp Hv Hd. cbn [runParser].
      now rewrite (method_lacks _ _ Hp), (method_lacks _ _ Hv), (method_lacks _ _ Hd). }
  intros props decode Hp Hv Hdec.
  assert (Hrun : runParser (ParserObject props) raw =
                 (result ← decode raw;
                  tag ← readTag result;
                  match tag with
                  | VString "Right" => Ok (get result "right")
                  | _ => Throw (decode_failed (get result "left"))
                  end)).
  { cbn [runParser].
    now rewrite (method_lacks _ _ Hp), (method_lacks _ _ Hv), (method_exposes _ _ _ Hdec). }
  rewrite Hrun. split; [| split].
  - intros result Hd Htag.
    now rewrite Hd, bind_Ok, (readTag_tagged _ _ Htag), bind_Ok.
  - intros result Hd Htag.
    rewrite Hd, bind_Ok, (readTag_tagged _ _ Htag), bind_Ok.
    eexists. split; [reflexivity |]. unfold decode_failed.
    rewrite <- (append_empty_r (template_of _)) at 1.
    apply includes_append.
  - intros msg Hd. now rewrite Hd.
Qed.

End ParserAdapter.

(** ** Records and the combined record validator *)

Section Records.
Context {V : Type}.
Implicit Types (o : list (string * V)) (k : string) (v : V).

Lemma has_key_true k o : has_key k o = true <-> exists v, assoc k o = Some v.
Proof.
  unfold has_key. destruct (assoc k o) as [v|].
  - split; [eauto | reflexivity].
  - split; [discriminate | intros [v Hv]; discriminate].
Qed.

Lemma has_key_false k o : has_key k o = false <-> assoc k o = None.
Proof. unfold has_key. destruct (assoc k o); split; congruence. Qed.

Lemma assoc_None_not_in k o : assoc k o = None <-> ~ In k (map fst o).
Proof.
  induction o as [|[k' v'] o IH]; simpl.
  - tauto.
  - destruct (String.eqb_spec k' k) as [->|Hne].
    + split; [discriminate | intros H; exfalso; apply H; now left].
    + rewrite IH. split; [intros H [?|?]; [contradiction | tauto] | tauto].
Qed.

Lemma assoc_Some_in k v o : assoc k o = Some v -> In (k, v) o.
Proof.
  induction o as [|[k' v'] o IH]; simpl; [discriminate |].
  destruct (String.eqb_spec k' k) as [->|Hne].
  - intros [= ->]. now left.
  - intros H. right. now apply IH.
Qed.

Lemma in_keys_assoc k o : In k (map fst o) -> exists v, assoc k o = Some v.
Proof.
  intros Hin. destruct (assoc k o) as [v|] eqn:Hk; [eauto |].
  now apply assoc_None_not_in in Hk.
Qed.

(** Writing an existing property. *)
Lemma assoc_update_eq k v o : has_key k o = true -> assoc k (update k v o) = Some v.
Proof.
  unfold has_key. induction o as [|[k' v'] o IH]; simpl; [discriminate |].
  destruct (String.eqb_spec k' k) as [->|Hne]; simpl.
  - now rewrite String.eqb_refl.
  - destruct (String.eqb_spec k' k); [contradiction | exact IH].
Qed.

Lemma assoc_update_ne k k' v o : k <> k' -> assoc k' (update k v o) = assoc k' o.
Proof.
  intros Hne. induction o as [|[k0 v0] o IH]; simpl; [reflexivity |].
  destruct (String.eqb_spec k0 k) as [->|Hk]; simpl.
  - destruct (String.eqb_spec k k'); [contradiction | reflexivity].
  - now rewrite IH.
Qed.

Lemma keys_update k v o : map fst (update k v o) = map fst o.
Proof.
  induction o as [|[k' v'] o IH]; simpl; [reflexivity |].
  destruct (String.eqb k' k); simpl; [reflexivity | now rewrite IH].
Qed.

(** Creating a property. *)
Lemma assoc_place_eq n k v o : assoc k o = None -> assoc k (place n k v o) = Some v.
Proof.
  induction o as [|[k' v'] o IH]; simpl.
  - now rewrite String.eqb_refl.
  - destruct (String.eqb_spec k' k) as [->|Hne]; [discriminate |]. intros Hk.
    destruct (arrayIndex k') as [n'|]; [destruct (n <? n')%N |]; simpl;
      rewrite ?String.eqb_refl; try reflexivity.
    destruct (String.eqb_spec k' k); [contradiction | now apply IH].
Qed.

Lemma assoc_place_ne n k k' v o : k <> k' -> assoc k' (place n k v o) = assoc k' o.
Proof.
  intros Hne. induction o as [|[k0 v0] o IH]; simpl.
  - destruct (String.eqb_spec k k'); [contradiction | reflexivity].
  - destruct (arrayIndex k0) as [n'|]; [destruct (n <? n')%N |]; simpl.
    + destruct (String.eqb_spec k k'); [contradiction | reflexivity].
    + now rewrite IH.
    + destruct (String.eqb_spec k k'); [contradiction | reflexivity].
Qed.

Lemma keys_place n k v o : Permutation (map fst (place n k v o)) (k :: map fst o).
Proof.
  induction o as [|[k' v'] o IH]; simpl; [reflexivity |].
  destruct (arrayIndex k') as [n'|]; [destruct (n <? n')%N |]; simpl; try reflexivity.
  rewrite IH. apply perm_swap.
Qed.

Lemma assoc_append_eq k v o : assoc k o = None -> assoc k (o ++ [(k, v)]) = Some v.
Proof.
  induction o as [|[k' v'] o IH]; simpl.
  - now rewrite String.eqb_refl.
  - destruct (String.eqb_spec k' k); [discriminate | exact IH].
Qed.

Lemma assoc_append_ne k k' v o : k <> k' -> assoc k' (o ++ [(k, v)]) = assoc k' o.
Proof.
  intros Hne. induction o as [|[k0 v0] o IH]; simpl.
  - destruct (String.eqb_spec k k'); [contradiction | reflexivity].
  - now rewrite IH.
Qed.

Lemma keys_create k v o : Permutation (map fst (create k v o)) (k :: map fst o).
Proof.
  unfold create. destruct (arrayIndex k) as [n|]; [apply keys_place |].
  rewrite map_app. simpl. symmetry. apply Permutation_cons_append.
Qed.

(** [o[k] = v] *)
Lemma assoc_assign_eq k v o : assoc k (assign k v o) = Some v.
Proof.
  unfold assign. destruct (has_key k o) eqn:Hk; [now apply assoc_update_eq |].
  apply has_key_false in Hk. unfold create.
  destruct (arrayIndex k); [now apply assoc_place_eq | now apply assoc_append_eq].
Qed.

Lemma assoc_assign_ne k k' v o : k <> k' -> assoc k' (assign k v o) = assoc k' o.
Proof.
  intros Hne. unfold assign, create.
  destruct (has_key k o); [now apply assoc_update_ne |].
  destruct (arrayIndex k); [now apply assoc_place_ne | now apply assoc_append_ne].
Qed.

Lemma NoDup_assign k v o :
  List.NoDup (map fst o) -> List.NoDup (map fst (assign k v o)).
Proof.
  intros Hnd. unfold assign. destruct (has_key k o) eqn:Hk.
  - now rewrite keys_update.
  - apply has_key_false, assoc_None_not_in in Hk.
    apply (Permutation_NoDup (l := k :: map fst o));
      [symmetry; apply keys_create | now constructor].
Qed.

Lemma assoc_all_None o : (forall k, assoc k o = None) -> o = [].
Proof.
  destruct o as [|[k v] o]; [reflexivity |].
  intros H. specialize (H k). simpl in H. now rewrite String.eqb_refl in H.
Qed.

End Records.

Section CombinedValidator.

Ltac case_key :=
  simpl assoc in *;
  repeat match goal with
    | |- context [String.eqb ?a ?b] => destruct (String.eqb_spec a b)
    | H : context [String.eqb ?a ?b] |- _ => destruct (String.eqb_spec a b)
    end;
  subst; try congruence; try contradiction; try assumption.

Lemma validated_cons_ne key parser es fs k v :
  key <> k -> validated ((key, parser) :: es) fs k v <-> validated es fs k v.
Proof.
  intros Hne. unfold validated.
  split; intros (p & y & Hp & Hy & Hr); exists p, y; repeat split; case_key.
Qed.

Lemma rejected_cons key parser es fs msg :
  assoc key es = None -> rejected es fs msg -> rejected ((key, parser) :: es) fs msg.
Proof.
  intros Hnone (k & p & y & Hp & Hy & Hr).
  exists k, p, y. repeat split; case_key.
Qed.

Lemma parseEntries_spec (es : ParserMap) (fs : Record_) :
  forall acc : Record_,
    List.NoDup (map fst es) ->
    (forall k, In k (map fst es) -> assoc k acc = None) ->
    match parseEntries es (VObject fs) acc with
    | Ok r =>
        (forall k v, assoc k r = Some v <-> assoc k acc = Some v \/ validated es fs k v) /\
        (List.NoDup (map fst acc) -> List.NoDup (map fst r))
    | Throw msg => rejected es fs msg
    end.
Proof.
  induction es as [|[key parser] es IH]; intros acc Hnd Hfresh.
  - simpl. split; [| tauto].
    intros k v. split; [now left |].
    intros [H | (p & x & Hp & _)]; [exact H | discriminate].
  - inversion Hnd as [|? ? Hkey Hnd']; subst.
    assert (Hnone : assoc key es = None) by now apply assoc_None_not_in.
    assert (Hacc : assoc key acc = None) by (apply Hfresh; now left).
    assert (Hrest : forall v k, In k (map fst es) -> assoc k (assign key v acc) = None).
    { intros v k Hk. rewrite assoc_assign_ne; [apply Hfresh; now right |].
      intros ->. contradiction. }
    cbn [parseEntries]. destruct (has_key key fs) eqn:Hhas.
    + apply has_key_true in Hhas as [x Hx]. simpl get. rewrite Hx.
      destruct (runParser parser x) as [v|msg] eqn:Hrun; simpl.
      * specialize (IH (assign key v acc) Hnd' (Hrest v)).
        destruct (parseEntries es (VObject fs) (assign key v acc)) as [r|msg];
          [| now apply rejected_cons].
        destruct IH as [IHa IHk]. split.
        -- intros k v0. rewrite IHa. destruct (String.eqb_spec key k) as [->|Hne].
           ++ rewrite assoc_assign_eq, Hacc. split.
              ** intros [[= <-] | (p & y & Hp & _)]; [| congruence].
                 right. exists parser, x. repeat split; case_key.
              ** intros [H | (p & y & Hp & Hy & Hr)]; [discriminate |].
                 left. case_key.
           ++ rewrite assoc_assign_ne, validated_cons_ne by exact Hne. reflexivity.
        -- intros Hd. now apply IHk, NoDup_assign.
      * exists key, parser, x. repeat split; case_key.
    + specialize (IH acc Hnd' (fun k Hk => Hfresh k (or_intror Hk))).
      assert (Hx : assoc key fs = None).
      { unfold has_key in Hhas. now destruct (assoc key fs). }
      destruct (parseEntries es (VObject fs) acc) as [r|msg];
        [| now apply rejected_cons].
      destruct IH as [IHa IHk]. split; [| exact IHk].
      intros k v. rewrite IHa. destruct (String.eqb_spec key k) as [->|Hne].
      * split; (intros [H | (p & y & Hp & Hy & Hr)]; [now left | congruence]).
      * now rewrite validated_cons_ne.
Qed.

Lemma runParser_createObjectParser (pm : ParserMap) (obj : JsVal) :
  runParser (createObjectParser pm) obj = objectParse pm obj.
Proof. reflexivity. Qed.

(** X27. For a parser map none of whose keys is a name plain objects
    inherit, the combined record validator runs a field's validator exactly
    on the keys the input record holds: its output is a record that has a
    key precisely when the input has it and the map has a validator for it,
    the value being the validator's result, so it adds no key and passes
    none through; and it raises only when the validator of a key of the
    input raises, never because a key is missing. *)
Theorem createObjectParser_present_keys (pm : ParserMap) (fs : Record_) :
  plainKeys (Some pm) = true ->
  List.NoDup (map fst pm) ->
  match runParser (createObjectParser pm) (VObject fs) with
  | Ok out =>
      exists r,
        out = VObject r /\
        (forall k v, assoc k r = Some v <-> validated pm fs k v) /\
        List.NoDup (map fst r) /\
        (forall k, In k (map fst r) -> In k (map fst fs) /\ In k (map fst pm))
  | Throw msg => rejected pm fs msg
  end.
Proof.
  intros _ Hnd. rewrite runParser_createObjectParser. unfold objectParse.
  pose proof (parseEntries_spec pm fs [] Hnd (fun k _ => eq_refl)) as H.
  destruct (parseEntries pm (VObject fs) []) as [r|msg]; simpl; [| exact H].
  destruct H as [Ha Hk].
  assert (Hv : forall k v, assoc k r = Some v <-> validated pm fs k v).
  { intros k v. rewrite Ha. split; [intros [H|H]; [discriminate | exact H] | now right]. }
  exists r. split; [reflexivity |]. split; [exact Hv |]. split.
  - apply Hk. constructor.
  - intros k Hin. apply in_keys_assoc in Hin as [v Hin].
    apply Hv in Hin as (parser & x & Hp & Hx & _).
    split; [apply assoc_Some_in in Hx | apply assoc_Some_in in Hp];
      now apply (in_map fst) in Hx || apply (in_map fst) in Hp.
Qed.

End CombinedValidator.

(** ** The route trie *)

Section Trie.

Variable config : RouteConfig.t.

Lemma insertSegments_cons (seg : string) (rest : list string) (node : TreeNode.t) :
  insertSegments config (seg :: rest) node =
    TreeNode.with_children
      (<[keyOf seg := insertSegments config rest (enterChild config seg node)]>
         (TreeNode.children node)) node.
Proof.
  unfold enterChild, declaredParser, declaredName, keyOf. simpl.
  destruct (isParamSegment seg); reflexivity.
Qed.

Lemma children_markTerminal (c : RouteConfig.t) (node : TreeNode.t) :
  TreeNode.children (markTerminal c node) = TreeNode.children node.
Proof. unfold markTerminal. destruct (RouteConfig.query c), (RouteConfig.meta c); reflexivity. Qed.

Lemma isTerminal_markTerminal (c : RouteConfig.t) (node : TreeNode.t) :
  TreeNode.isTerminal (markTerminal c node) = true.
Proof. unfold markTerminal. destruct (RouteConfig.query c), (RouteConfig.meta c); reflexivity. Qed.

Lemma paramName_markTerminal (c : RouteConfig.t) (node : TreeNode.t) :
  TreeNode.paramName (markTerminal c node) = TreeNode.paramName node.
Proof. unfold markTerminal. destruct (RouteConfig.query c), (RouteConfig.meta c); reflexivity. Qed.

Lemma paramParser_markTerminal (c : RouteConfig.t) (node : TreeNode.t) :
  TreeNode.paramParser (markTerminal c node) = TreeNode.paramParser node.
Proof. unfold markTerminal. destruct (RouteConfig.query c), (RouteConfig.meta c); reflexivity. Qed.

Lemma walk_cons_markTerminal (c : RouteConfig.t) k ks (node : TreeNode.t) :
  walk (k :: ks) (markTerminal c node) = walk (k :: ks) node.
Proof. simpl. now rewrite children_markTerminal. Qed.

(** Below the key of its first segment, an insertion continues in the
    entered child; under any other key the subtree is left alone. *)
Lemma walk_insert_same seg rest node ks :
  walk (keyOf seg :: ks) (insertSegments config (seg :: rest) node) =
    walk ks (insertSegments config rest (enterChild config seg node)).
Proof. rewrite insertSegments_cons. simpl. now rewrite lookup_insert_eq. Qed.

Lemma walk_insert_other seg rest node k ks :
  k <> keyOf seg ->
  walk (k :: ks) (insertSegments config (seg :: rest) node) = walk (k :: ks) node.
Proof.
  intros Hne. rewrite insertSegments_cons. simpl.
  rewrite lookup_insert_ne by congruence. reflexivity.
Qed.

(** The fields of the root of the updated subtree. *)
Lemma isTerminal_insert segs node :
  TreeNode.isTerminal (insertSegments config segs node) =
    match segs with [] => true | _ :: _ => TreeNode.isTerminal node end.
Proof.
  destruct segs; [apply isTerminal_markTerminal | now rewrite insertSegments_cons].
Qed.

Lemma paramName_insert segs node :
  TreeNode.paramName (insertSegments config segs node) = TreeNode.paramName node.
Proof.
  destruct segs; [apply paramName_markTerminal | now rewrite insertSegments_cons].
Qed.

Lemma paramParser_insert segs node :
  TreeNode.paramParser (insertSegments config segs node) = TreeNode.paramParser node.
Proof.
  destruct segs; [apply paramParser_markTerminal | now rewrite insertSegments_cons].
Qed.

(** The entered child, seen from the parent. *)
Lemma walk_cons_enterChild seg node k ks :
  walk (k :: ks) (enterChild config seg node) = walk (keyOf seg :: k :: ks) node.
Proof.
  unfold enterChild. cbn [walk].
  destruct (TreeNode.children node !! keyOf seg) as [c|];
    destruct (declaredParser config seg); reflexivity.
Qed.

Lemma isTerminal_enterChild seg node :
  TreeNode.isTerminal (enterChild config seg node) =
    match TreeNode.children node !! keyOf seg with
    | Some c => TreeNode.isTerminal c
    | None => false
    end.
Proof.
  unfold enterChild.
  destruct (TreeNode.children node !! keyOf seg) as [c|];
    destruct (declaredParser config seg); reflexivity.
Qed.

Lemma paramName_enterChild seg node :
  TreeNode.paramName (enterChild config seg node) =
    match TreeNode.children node !! keyOf seg with
    | Some c => TreeNode.paramName c
    | None => declaredName seg
    end.
Proof.
  unfold enterChild.
  destruct (TreeNode.children node !! keyOf seg) as [c|];
    destruct (declaredParser config seg); reflexivity.
Qed.

Lemma paramParser_enterChild seg node :
  TreeNode.paramParser (enterChild config seg node) =
    match declaredParser config seg with
    | Some p => Some p
    | None =>
        match TreeNode.children node !! keyOf seg with
        | Some c => TreeNode.paramParser c
        | None => None
        end
    end.
Proof.
  unfold enterChild.
  destruct (TreeNode.children node !! keyOf seg) as [c|];
    destruct (declaredParser config seg); reflexivity.
Qed.

(** A terminal node below the entered child was terminal before. *)
Lemma terminal_below_enterChild seg node ks :
  (exists n0, walk ks (enterChild config seg node) = Some n0 /\ TreeNode.isTerminal n0 = true) <->
  (exists n0, walk (keyOf seg :: ks) node = Some n0 /\ TreeNode.isTerminal n0 = true).
Proof.
  destruct ks as [|k ks].
  - cbn [walk]. pose proof (isTerminal_enterChild seg node) as Ht.
    destruct (TreeNode.children node !! keyOf seg) as [c|].
    + split; intros (n0 & [= <-] & Hn0); eexists; (split; [reflexivity | congruence]).
    + split; intros (n0 & Heq & Hn0); congruence.
  - now rewrite walk_cons_enterChild.
Qed.

(** Where an inserted segment list makes a node terminal. *)
Lemma insert_terminal_iff segs :
  forall node ks n,
    walk ks (insertSegments config segs node) = Some n ->
    TreeNode.isTerminal n = true <->
      ks = map keyOf segs \/
      exists n0, walk ks node = Some n0 /\ TreeNode.isTerminal n0 = true.
Proof.
  induction segs as [|seg rest IH]; intros node ks n Hw.
  - destruct ks as [|k ks].
    + cbn [walk] in Hw. apply (inj Some) in Hw. subst n. cbn [insertSegments].
      rewrite isTerminal_markTerminal.
      split; [now left | reflexivity].
    + cbn [insertSegments] in Hw. rewrite walk_cons_markTerminal in Hw.
      split; [intros Ht; right; eauto |].
      intros [Heq | (n0 & Hn0 & Ht)]; [discriminate | congruence].
  - destruct ks as [|k ks].
    + cbn [walk] in Hw. apply (inj Some) in Hw. subst n. rewrite isTerminal_insert.
      split; [intros Ht; right; eexists; split; [reflexivity | exact Ht] |].
      intros [Heq | (n0 & [= <-] & Ht)]; [discriminate | exact Ht].
    + destruct (decide (k = keyOf seg)) as [->|Hne].
      * rewrite walk_insert_same in Hw. rewrite (IH _ _ _ Hw).
        rewrite terminal_below_enterChild. cbn [map].
        split; (intros [Heq | H]; [left; congruence | now right]).
      * rewrite walk_insert_other in Hw by exact Hne. cbn [map].
        split; [intros Ht; right; eauto |].
        intros [Heq | (n0 & Hn0 & Ht)]; [congruence | congruence].
Qed.

(** An insertion keeps every position that existed, and creates its own. *)
Lemma insert_walk_keeps segs :
  forall node ks, is_Some (walk ks node) -> is_Some (walk ks (insertSegments config segs node)).
Proof.
  induction segs as [|seg rest IH]; intros node ks Hs.
  - destruct ks as [|k ks]; [eexists; reflexivity |].
    cbn [insertSegments]. now rewrite walk_cons_markTerminal.
  - destruct ks as [|k ks]; [eexists; reflexivity |].
    destruct (decide (k = keyOf seg)) as [->|Hne].
    + rewrite walk_insert_same. apply IH.
      destruct ks as [|k' ks]; [eexists; reflexivity |].
      now rewrite walk_cons_enterChild.
    + now rewrite walk_insert_other.
Qed.

Lemma insert_walk_own segs :
  forall node, is_Some (walk (map keyOf segs) (insertSegments config segs node)).
Proof.
  induction segs as [|seg rest IH]; intros node; [eexists; reflexivity |].
  cbn [map]. rewrite walk_insert_same. apply IH.
Qed.

(** Positions an insertion does not create. *)
Lemma insert_walk_None segs :
  forall node ks,
    walk ks node = None -> segmentAt segs ks = None ->
    walk ks (insertSegments config segs node) = None.
Proof.
  induction segs as [|seg rest IH]; intros node ks Hn Hs.
  - destruct ks as [|k ks]; [discriminate |].
    cbn [insertSegments]. now rewrite walk_cons_markTerminal.
  - destruct ks as [|k ks]; [discriminate |].
    destruct (decide (k = keyOf seg)) as [->|Hne].
    + rewrite walk_insert_same. cbn [segmentAt] in Hs. rewrite String.eqb_refl in Hs.
      destruct ks as [|k' ks]; [discriminate |].
      apply IH; [| exact Hs]. now rewrite walk_cons_enterChild.
    + now rewrite walk_insert_other.
Qed.

Lemma insert_walk_arrives segs :
  forall node ks,
    is_Some (segmentAt segs ks) -> is_Some (walk ks (insertSegments config segs node)).
Proof.
  induction segs as [|seg rest IH]; intros node ks Hs.
  - destruct ks; destruct Hs; discriminate.
  - destruct ks as [|k ks]; [destruct Hs; discriminate |].
    cbn [segmentAt] in Hs. destruct (String.eqb_spec (keyOf seg) k) as [<-|Hne].
    + rewrite walk_insert_same.
      destruct ks as [|k' ks]; [eexists; reflexivity | now apply IH].
    + destruct Hs; discriminate.
Qed.

(** The parameter name of a node is fixed when the node is created; the
    validator is overwritten by every definition that brings one. *)
Lemma insert_paramName segs :
  forall node ks n,
    walk ks (insertSegments config segs node) = Some n ->
    TreeNode.paramName n =
      match walk ks node with
      | Some n0 => TreeNode.paramName n0
      | None => segmentAt segs ks ≫= declaredName
      end.
Proof.
  induction segs as [|seg rest IH]; intros node ks n Hw.
  - destruct ks as [|k ks].
    + cbn [walk] in *. apply (inj Some) in Hw. subst n. apply paramName_markTerminal.
    + cbn [insertSegments] in Hw. rewrite walk_cons_markTerminal in Hw. now rewrite Hw.
  - destruct ks as [|k ks].
    + cbn [walk] in *. apply (inj Some) in Hw. subst n. apply paramName_insert.
    + destruct (decide (k = keyOf seg)) as [->|Hne].
      * rewrite walk_insert_same in Hw. cbn [segmentAt]. rewrite String.eqb_refl.
        destruct ks as [|k' ks].
        -- cbn [walk] in *. apply (inj Some) in Hw. subst n.
           rewrite paramName_insert, paramName_enterChild.
           now destruct (TreeNode.children node !! keyOf seg).
        -- rewrite (IH _ _ _ Hw). now rewrite walk_cons_enterChild.
      * rewrite walk_insert_other in Hw by exact Hne. now rewrite Hw.
Qed.

Lemma insert_paramParser segs :
  forall node ks n,
    walk ks (insertSegments config segs node) = Some n ->
    TreeNode.paramParser n =
      match segmentAt segs ks ≫= declaredParser config with
      | Some p => Some p
      | None =>
          match walk ks node with
          | Some n0 => TreeNode.paramParser n0
          | None => None
          end
      end.
Proof.
  induction segs as [|seg rest IH]; intros node ks n Hw.
  - destruct ks as [|k ks].
    + cbn [walk] in *. apply (inj Some) in Hw. subst n. apply paramParser_markTerminal.
    + cbn [insertSegments] in Hw. rewrite walk_cons_markTerminal in Hw. now rewrite Hw.
  - destruct ks as [|k ks].
    + cbn [walk] in *. apply (inj Some) in Hw. subst n. apply paramParser_insert.
    + destruct (decide (k = keyOf seg)) as [->|Hne].
      * rewrite walk_insert_same in Hw. cbn [segmentAt]. rewrite String.eqb_refl.
        destruct ks as [|k' ks].
        -- cbn [walk] in *. apply (inj Some) in Hw. subst n.
           rewrite paramParser_insert, paramParser_enterChild. cbn.
           destruct (declaredParser config seg); [reflexivity |].
           now destruct (TreeNode.children node !! keyOf seg).
        -- rewrite (IH _ _ _ Hw). now rewrite walk_cons_enterChild.
      * rewrite walk_insert_other in Hw by exact Hne. rewrite Hw.
        cbn [segmentAt]. destruct (String.eqb_spec (keyOf seg) k); [congruence |].
        reflexivity.
Qed.

End Trie.

Section BuiltTree.

Lemma addDefinition_insert (root : TreeNode.t) (def : RouteDefinition) :
  addDefinition root def = insertSegments (configOf def) (routeSegments def) root.
Proof. unfold addDefinition, routeSegments. now destruct (pathSegments _). Qed.

Lemma walk_newNode ks name n :
  walk ks (newNode name) = Some n -> ks = [] /\ n = newNode name.
Proof.
  destruct ks as [|k ks]; cbn [walk].
  - intros H. apply (inj Some) in H. now subst.
  - unfold newNode at 1. cbn [TreeNode.children]. now rewrite lookup_empty.
Qed.

Lemma fold_terminal_iff (defs : list RouteDefinition) :
  forall t ks n,
    walk ks (fold_left addDefinition defs t) = Some n ->
    TreeNode.isTerminal n = true <->
      (exists def, In def defs /\ routeKeys def = ks) \/
      (exists n0, walk ks t = Some n0 /\ TreeNode.isTerminal n0 = true).
Proof.
  induction defs as [|d defs IH]; intros t ks n Hw; cbn [fold_left] in Hw.
  - split; [intros Ht; right; eauto |].
    intros [(def & [] & _) | (n0 & Hn0 & Ht)]. cbn [fold_left] in Hn0. congruence.
  - rewrite (IH _ _ _ Hw). rewrite addDefinition_insert. split.
    + intros [(def & Hin & Hk) | (n0 & Hn0 & Ht)].
      * left. exists def. split; [now right | exact Hk].
      * apply (insert_terminal_iff _ _ _ _ _ Hn0) in Ht as [-> | Hold];
          [left; exists d; split; [now left | reflexivity] | now right].
    + intros [(def & [<- | Hin] & Hk) | (n0 & Hn0 & Ht)].
      * destruct (insert_walk_own (configOf d) (routeSegments d) t) as [n1 Hn1].
        right. exists n1. fold (routeKeys d) in Hn1. rewrite Hk in Hn1.
        split; [exact Hn1 |].
        apply (insert_terminal_iff _ _ _ _ _ Hn1). now left.
      * left. eauto.
      * destruct (insert_walk_keeps (configOf d) (routeSegments d) t ks) as [n1 Hn1];
          [eauto |].
        right. exists n1. split; [exact Hn1 |].
        apply (insert_terminal_iff _ _ _ _ _ Hn1). right. eauto.
Qed.

Lemma fold_walk_keeps (defs : list RouteDefinition) :
  forall t ks,
    is_Some (walk ks t) \/ (exists def, In def defs /\ routeKeys def = ks) ->
    is_Some (walk ks (fold_left addDefinition defs t)).
Proof.
  induction defs as [|d defs IH]; intros t ks H; cbn [fold_left].
  - destruct H as [H | (def & [] & _)]. exact H.
  - apply IH. rewrite addDefinition_insert.
    destruct H as [H | (def & [<- | Hin] & Hk)].
    + left. now apply insert_walk_keeps.
    + left. rewrite <- Hk. apply insert_walk_own.
    + right. eauto.
Qed.

(** A node of the built trie is terminal exactly when a declared route ends
    at its position. *)
Lemma buildTree_terminal_iff (defs : list RouteDefinition) ks n :
  walk ks (buildTree defs) = Some n ->
  TreeNode.isTerminal n = true <-> exists def, In def defs /\ routeKeys def = ks.
Proof.
  intros Hw. unfold buildTree in Hw. rewrite (fold_terminal_iff _ _ _ _ Hw).
  split; [| now left].
  intros [H | (n0 & Hn0 & Ht)]; [exact H |].
  apply walk_newNode in Hn0 as [_ ->]. discriminate.
Qed.

(** Every declared route has its terminal node in the built trie. *)
Lemma buildTree_declared (defs : list RouteDefinition) def :
  In def defs ->
  exists n, walk (routeKeys def) (buildTree defs) = Some n /\ TreeNode.isTerminal n = true.
Proof.
  intros Hin.
  destruct (fold_walk_keeps defs (newNode None) (routeKeys def)) as [n Hn]; [right; eauto |].
  exists n. split; [exact Hn |].
  apply (buildTree_terminal_iff _ _ _ Hn). eauto.
Qed.

Lemma buildTree_root_terminal (defs : list RouteDefinition) :
  TreeNode.isTerminal (buildTree defs) = true <->
  exists def, In def defs /\ routeSegments def = [].
Proof.
  rewrite (buildTree_terminal_iff defs [] (buildTree defs) eq_refl).
  split; intros (def & Hin & H); exists def; (split; [exact Hin |]).
  - unfold routeKeys in H. now destruct (routeSegments def).
  - unfold routeKeys. now rewrite H.
Qed.

Lemma fold_paramName (defs : list RouteDefinition) pos :
  forall t n,
    walk pos (fold_left addDefinition defs t) = Some n ->
    TreeNode.paramName n =
      match walk pos t with
      | Some n0 => TreeNode.paramName n0
      | None => firstSome (map (arrivesWith pos) defs) ≫= declaredName
      end.
Proof.
  induction defs as [|d defs IH]; intros t n Hw; cbn [fold_left] in Hw.
  - now rewrite Hw.
  - rewrite (IH _ _ Hw). rewrite addDefinition_insert. cbn [map firstSome].
    destruct (walk pos (insertSegments (configOf d) (routeSegments d) t)) as [n1|] eqn:Hn1.
    + rewrite (insert_paramName _ _ _ _ _ Hn1).
      destruct (walk pos t) as [n0|] eqn:Hn0; [reflexivity |].
      change (arrivesWith pos d) with (segmentAt (routeSegments d) pos).
      destruct (segmentAt (routeSegments d) pos) as [seg|] eqn:Hs; [reflexivity |].
      rewrite (insert_walk_None _ _ _ _ Hn0 Hs) in Hn1. discriminate.
    + destruct (walk pos t) as [n0|] eqn:Hn0.
      { destruct (insert_walk_keeps (configOf d) (routeSegments d) t pos) as [n1 H1];
          [eauto | congruence]. }
      change (arrivesWith pos d) with (segmentAt (routeSegments d) pos).
      destruct (segmentAt (routeSegments d) pos) as [seg|] eqn:Hs; [| reflexivity].
      destruct (insert_walk_arrives (configOf d) (routeSegments d) t pos) as [n1 H1];
        [rewrite Hs; eauto | congruence].
Qed.

Lemma fold_paramParser (defs : list RouteDefinition) pos :
  forall t n,
    walk pos (fold_left addDefinition defs t) = Some n ->
    TreeNode.paramParser n =
      match lastSome (map (fun def => arrivesWith pos def ≫= declaredParser (configOf def)) defs) with
      | Some p => Some p
      | None =>
          match walk pos t with
          | Some n0 => TreeNode.paramParser n0
          | None => None
          end
      end.
Proof.
  induction defs as [|d defs IH]; intros t n Hw; cbn [fold_left] in Hw.
  - now rewrite Hw.
  - rewrite (IH _ _ Hw). cbn [map lastSome].
    destruct (lastSome _) as [p|]; [reflexivity |].
    rewrite addDefinition_insert. unfold arrivesWith.
    destruct (walk pos (insertSegments (configOf d) (routeSegments d) t)) as [n1|] eqn:Hn1.
    + apply (insert_paramParser _ _ _ _ _ Hn1).
    + destruct (walk pos t) as [n0|] eqn:Hn0.
      { destruct (insert_walk_keeps (configOf d) (routeSegments d) t pos) as [n1 H1];
          [eauto | congruence]. }
      destruct (segmentAt (routeSegments d) pos) as [seg|] eqn:Hs; [| reflexivity].
      destruct (insert_walk_arrives (configOf d) (routeSegments d) t pos) as [n1 H1];
        [rewrite Hs; eauto | congruence].
Qed.

Lemma keyOf_param (seg : string) : isParamSegment seg = true -> keyOf seg = PARAM_KEY.
Proof. unfold keyOf. now intros ->. Qed.

(** C7, amended.  Parametric segments are stored under the one sentinel key
    whatever their name.  In a table that keeps clear of the names plain
    objects inherit, the node at a position carries the parameter name of
    the first definition that arrives there (the name is set when the node
    is created and never rewritten), and the validator of the last definition
    that arrives there with a validator for its own parameter name. *)
Theorem param_edge_first_name_last_parser (defs : list RouteDefinition)
    (pos : list string) (n : TreeNode.t) :
  plainTable defs = true ->
  walk pos (buildTree defs) = Some n ->
  (forall seg, isParamSegment seg = true -> keyOf seg = PARAM_KEY) /\
  TreeNode.paramName n = firstSome (map (arrivesWith pos) defs) ≫= declaredName /\
  TreeNode.paramParser n =
    lastSome (map (fun def => arrivesWith pos def ≫= declaredParser (configOf def)) defs).
Proof.
  intros _ Hw. split; [exact keyOf_param |]. unfold buildTree in Hw. split.
  - rewrite (fold_paramName _ _ _ _ Hw).
    destruct (walk pos (newNode None)) as [n0|] eqn:Hn0; [| reflexivity].
    apply walk_newNode in Hn0 as [-> ->]. cbn [TreeNode.paramName newNode].
    clear. induction defs as [|d defs IH]; [reflexivity |].
    cbn [map firstSome]. unfold arrivesWith at 1.
    now destruct (routeSegments d).
  - rewrite (fold_paramParser _ _ _ _ Hw).
    destruct (lastSome _); [reflexivity |].
    destruct (walk pos (newNode None)) as [n0|] eqn:Hn0; [| reflexivity].
    now apply walk_newNode in Hn0 as [-> ->].
Qed.

End BuiltTree.

(** ** Navigation proxies *)

Section Navigation.

Lemma walk_app ks1 ks2 t :
  walk (ks1 ++ ks2) t = walk ks1 t ≫= walk ks2.
Proof.
  revert t. induction ks1 as [|k ks1 IH]; intros t; [reflexivity |].
  cbn [app walk]. destruct (TreeNode.children t !! k); [apply IH | reflexivity].
Qed.


Ltac case_traps H :=
  repeat match type of H with
    | (if ?c then _ else _) = _ => destruct c eqn:?; [discriminate H |]
    end.

(** A property access that yields a proxy went through the child lookup. *)
Lemma Proxy_get_child p prop p' :
  Proxy_get p (PropName prop) = GotProxy p' ->
  exists child,
    childFor (tree p) prop = Some child /\
    p' = createProxy (segments p ++ [SegStatic prop]) VUndefined child
           (options p) (TreeNode.meta child).
Proof.
  unfold Proxy_get. intros H. case_traps H.
  destruct (childFor (tree p) prop) as [child|]; [| discriminate].
  exists child. split; [reflexivity | congruence].
Qed.

Lemma Root_get_child r prop p' :
  Root_get r (PropName prop) = GotProxy p' ->
  exists child,
    childFor (rootTree r) prop = Some child /\
    p' = createProxy [SegStatic prop] VUndefined child (rootOptions r) (TreeNode.meta child).
Proof.
  unfold Root_get. intros H. case_traps H.
  destruct (childFor (rootTree r) prop) as [child|]; [| discriminate].
  exists child. split; [reflexivity | congruence].
Qed.






Lemma callParam_inv (segs : list Segment) (paramNode : TreeNode.t) (o : RoutishOptions)
    (v q : JsVal) (p' : Proxy) :
  callParam segs paramNode o v q = Ok p' ->
  exists value validated,
    match TreeNode.paramParser paramNode with
    | Some pp => runParser pp v = Ok value
    | None => value = v
    end /\
    match truthy q, TreeNode.queryParser paramNode with
    | true, Some qp => runParser qp q = Ok validated
    | _, _ => validated = q
    end /\
    p' = createProxy (segs ++ [SegParam (TreeNode.paramName paramNode) (String_ value)])%list
           validated paramNode o (TreeNode.meta paramNode).
Proof.
  unfold callParam. intros H.
  destruct (match TreeNode.paramParser paramNode with
            | Some p => runParser p v | None => Ok v end) as [value|] eqn:Hv; [| discriminate].
  rewrite bind_Ok in H.
  destruct (match truthy q, TreeNode.queryParser paramNode with
            | true, Some qp => runParser qp q | _, _ => Ok q end) as [validated|] eqn:Hq;
    [| discriminate].
  rewrite bind_Ok in H. injection H as <-. exists value, validated.
  split; [| split; [| reflexivity]].
  - destruct (TreeNode.paramParser paramNode); [exact Hv | congruence].
  - destruct (truthy q), (TreeNode.queryParser paramNode); congruence.
Qed.

Lemma Proxy_call_query_inv (p : Proxy) (q q' : JsVal) (p' : Proxy) :
  typeof q = TObject ->
  Proxy_call p q q' = Ok p' ->
  exists validated,
    match TreeNode.queryParser (tree p) with
    | Some qp => runParser qp q = Ok validated
    | None => validated = q
    end /\
    p' = createProxy (segments p) validated (tree p) (options p) (TreeNode.meta (tree p)).
Proof.
  unfold Proxy_call. intros ->.
  destruct (match TreeNode.queryParser (tree p) with
            | Some qp => runParser qp q | None => Ok q end) as [validated|] eqn:Hq;
    [| discriminate].
  rewrite bind_Ok. intros [= <-]. exists validated. split; [| reflexivity].
  destruct (TreeNode.queryParser (tree p)); congruence.
Qed.







(** Every navigation is recorded by some trail. *)
Lemma Reaches_Navigated r ks p : Reaches r ks p -> exists trail, Navigated r ks trail p.
Proof.
  induction 1 as [prop p Hg | v q p Hc | ks p0 prop p _ [trail IH] Hg
                 | ks p0 q q' p _ [trail IH] Hq Hc | ks p0 v q p _ [trail IH] Hv Hc].
  - eexists. now apply navigated_root_get.
  - eexists. now apply (navigated_root_call r v q).
  - eexists. now apply (navigated_get r ks trail p0).
  - eexists. now apply (navigated_call_query r ks trail p0 q q').
  - eexists. now apply (navigated_call_value r ks trail p0 v q).
Qed.




(** C3. Rendering the root proxy itself always fails with the error that
    points to the root accessor, whatever was declared.  The root accessor
    [$index] answers for the root node: its metadata is the root node's, its
    query call validates with the root node's query parser, and its render
    succeeds exactly when a definition with zero segments was supplied and
    fails with the root-not-defined error otherwise. *)
Theorem root_render_and_index (defs : list RouteDefinition) (o : RoutishOptions) :
  let r := proxy (createRoutes defs o) in
  let declared := exists def, In def defs /\ routeSegments def = [] in
  Root_get r (PropName "toString") = GotToString (Throw root_toString_message) /\
  Root_get r (PropSymbol SymToStringTag) = GotToString (Throw root_toString_message) /\
  Root_get r (PropName "toPattern") = GotToPattern (Throw root_toPattern_message) /\
  includes root_toString_message "Use routes.$index" = true /\
  includes root_toPattern_message "Use routes.$index" = true /\
  (forall pattern, root_toString_message <> not_a_route_message pattern /\
                   root_toPattern_message <> not_a_route_message pattern) /\
  Root_get r (PropName "$index") = GotIndex r /\
  Index_get r (PropName "getMeta") = GotGetMeta (TreeNode.meta (buildTree defs)) /\
  (forall q, Index_call r q =
     (validated ← match truthy q, TreeNode.queryParser (buildTree defs) with
                  | true, Some qp => runParser qp q
                  | _, _ => Ok q
                  end;
      Ok (createRouteNode [] validated (TreeNode.meta (buildTree defs)) (trailingSlashOf o)))) /\
  Index_get r (PropName "toString") = GotToString (Index_toString r) /\
  Index_get r (PropName "toPattern") = GotToPattern (Index_toPattern r) /\
  ((exists s, Index_toString r = Ok s) <-> declared) /\
  ((exists s, Index_toPattern r = Ok s) <-> declared) /\
  (~ declared ->
   Index_toString r = Throw root_not_defined_message /\
   Index_toPattern r = Throw root_not_defined_message).
Proof.
  intros r declared.
  repeat match goal with |- _ = _ /\ _ => split; [reflexivity |] end.
  split; [intros pattern; split; discriminate |].
  repeat match goal with |- _ = _ /\ _ => split; [reflexivity |] end.
  split; [intros q; reflexivity |].
  repeat match goal with |- _ = _ /\ _ => split; [reflexivity |] end.
  unfold Index_toString, Index_toPattern, declared. cbn.
  pose proof (buildTree_root_terminal defs) as Hroot.
  destruct (TreeNode.isTerminal (buildTree defs)); cbn.
  - assert (Hd : exists def, In def defs /\ routeSegments def = []) by now apply Hroot.
    repeat split; eauto. all: contradiction.
  - assert (Hd : ~ exists def, In def defs /\ routeSegments def = []).
    { intros H. apply Hroot in H. discriminate. }
    repeat split; try (intros [s Hs]; discriminate); try contradiction.
Qed.

Lemma isInherited_In (name : string) : isInherited name = true <-> In name inheritedNames.
Proof.
  unfold isInherited. rewrite existsb_exists. split.
  - intros (x & Hin & Heq). apply String.eqb_eq in Heq. now subst.
  - intros Hin. exists name. split; [exact Hin | apply String.eqb_refl].
Qed.

Lemma isInherited_false (name : string) :
  ~ In name inheritedNames <-> isInherited name = false.
Proof.
  rewrite <- isInherited_In. destruct (isInherited name); split; congruence.
Qed.

(** A name the traps do not intercept goes to the child lookup, unless plain
    objects inherit it. *)
Lemma Proxy_get_name p prop :
  ~ In prop interceptedNames ->
  Proxy_get p (PropName prop) =
    if isInherited prop then GotThrow not_a_node_message
    else match childFor (tree p) prop with
         | Some child =>
             GotProxy (createProxy (segments p ++ [SegStatic prop]) VUndefined child
                         (options p) (TreeNode.meta child))
         | None => GotUndefined
         end.
Proof.
  intros Hni. unfold Proxy_get, isName, isToStringTag. cbn in Hni.
  repeat match goal with
    | |- context [String.eqb prop ?s] =>
        destruct (String.eqb_spec prop s); [exfalso; apply Hni; subst; tauto |]
    end.
  reflexivity.
Qed.

Lemma Proxy_get_static p prop :
  ~ In prop interceptedNames -> ~ In prop inheritedNames ->
  Proxy_get p (PropName prop) =
    match childFor (tree p) prop with
    | Some child =>
        GotProxy (createProxy (segments p ++ [SegStatic prop]) VUndefined child
                    (options p) (TreeNode.meta child))
    | None => GotUndefined
    end.
Proof.
  intros Hni Hnh. rewrite (Proxy_get_name p prop Hni).
  now rewrite (proj1 (isInherited_false prop) Hnh).
Qed.

Lemma Root_get_static r prop :
  ~ In prop interceptedNames -> prop <> "$index" -> ~ In prop inheritedNames ->
  Root_get r (PropName prop) =
    match childFor (rootTree r) prop with
    | Some child =>
        GotProxy (createProxy [SegStatic prop] VUndefined child
                    (rootOptions r) (TreeNode.meta child))
    | None => GotUndefined
    end.
Proof.
  intros Hni Hidx Hnh. unfold Root_get, isName, isToStringTag. cbn in Hni.
  repeat match goal with
    | |- context [String.eqb prop ?s] =>
        destruct (String.eqb_spec prop s); [exfalso; subst; tauto |]
    end.
  now rewrite (proj1 (isInherited_false prop) Hnh).
Qed.

Lemma childFor_skip t prop paramNode grandchild :
  TreeNode.children t !! prop = None ->
  paramNodeOf t = Some paramNode ->
  TreeNode.children paramNode !! prop = Some grandchild ->
  childFor t prop = Some grandchild.
Proof. intros Hc Hp Hg. unfold childFor. now rewrite Hc, Hp. Qed.

(** C10, amended.  Let a static name be none of the property names the
    traps answer themselves and none of the names plain objects inherit.
    When it is not a static child of the current node but is a child of the
    current node's parametric child, the property access returns a proxy
    bound to that grandchild with only the static segment appended: the
    parametric segment is skipped, and the path and the pattern the new
    proxy renders omit it.  The root proxy does the same for a name other
    than [$index]. *)
Theorem static_descent_skips_param (t : TreeNode.t) (prop : string)
    (paramNode grandchild : TreeNode.t) :
  ~ In prop interceptedNames ->
  ~ In prop inheritedNames ->
  TreeNode.children t !! prop = None ->
  paramNodeOf t = Some paramNode ->
  TreeNode.children paramNode !! prop = Some grandchild ->
  (forall p, tree p = t ->
     let p' := createProxy (segments p ++ [SegStatic prop]) VUndefined grandchild
                 (options p) (TreeNode.meta grandchild) in
     Proxy_get p (PropName prop) = GotProxy p' /\
     (TreeNode.isTerminal grandchild = true ->
      Proxy_toString p' =
        Ok (buildPath (segments p ++ [SegStatic prop]) VUndefined
              (trailingSlashOf (options p))) /\
      Proxy_toPattern p' =
        Ok (buildPattern (segments p ++ [SegStatic prop]) (trailingSlashOf (options p))))) /\
  (forall r, rootTree r = t -> prop <> "$index" ->
     let p' := createProxy [SegStatic prop] VUndefined grandchild
                 (rootOptions r) (TreeNode.meta grandchild) in
     Root_get r (PropName prop) = GotProxy p' /\
     (TreeNode.isTerminal grandchild = true ->
      Proxy_toString p' =
        Ok (buildPath [SegStatic prop] VUndefined (trailingSlashOf (rootOptions r))) /\
      Proxy_toPattern p' =
        Ok (buildPattern [SegStatic prop] (trailingSlashOf (rootOptions r))))).
Proof.
  intros Hni Hnh Hc Hp Hg.
  pose proof (childFor_skip _ _ _ _ Hc Hp Hg) as Hchild. split.
  - intros p <- p'. split.
    + rewrite Proxy_get_static by assumption. now rewrite Hchild.
    + intros Ht. unfold Proxy_toString, Proxy_toPattern, p'. cbn. now rewrite Ht.
  - intros r <- Hidx p'. split.
    + rewrite Root_get_static by assumption. now rewrite Hchild.
    + intros Ht. unfold Proxy_toString, Proxy_toPattern, p'. cbn. now rewrite Ht.
Qed.

(** Descending along static children. *)
Lemma descendFrom_walk names :
  forall p n,
    walk names (tree p) = Some n ->
    (forall name, In name names -> ~ In name interceptedNames /\ ~ In name inheritedNames) ->
    query p = VUndefined ->
    exists p',
      descendFrom p names = Some p' /\
      tree p' = n /\
      segments p' = (segments p ++ map SegStatic names)%list /\
      options p' = options p /\
      query p' = VUndefined.
Proof.
  induction names as [|name rest IH]; intros p n Hw Hni Hq.
  - cbn [walk] in Hw. apply (inj Some) in Hw. subst n.
    exists p. cbn [descendFrom map]. now rewrite app_nil_r.
  - cbn [walk] in Hw. cbn [descendFrom].
    destruct (TreeNode.children (tree p) !! name) as [c|] eqn:Hc; [| discriminate].
    rewrite Proxy_get_static by (apply Hni; now left).
    unfold childFor. rewrite Hc.
    destruct (IH (createProxy (segments p ++ [SegStatic name]) VUndefined c
                    (options p) (TreeNode.meta c)) n Hw)
      as (p' & Hd & Ht & Hs & Ho & Hq'); [intros; apply Hni; now right | reflexivity |].
    exists p'. repeat split; try assumption.
    rewrite Hs. cbn [segments map]. now rewrite <- app_assoc.
Qed.

Lemma descend_walk r names n :
  names <> [] ->
  walk names (rootTree r) = Some n ->
  (forall name, In name names -> ~ In name interceptedNames /\ ~ In name inheritedNames) ->
  hd "" names <> "$index" ->
  exists p',
    descend r names = Some p' /\
    tree p' = n /\
    segments p' = map SegStatic names /\
    options p' = rootOptions r /\
    query p' = VUndefined.
Proof.
  intros Hne Hw Hni Hidx. destruct names as [|name rest]; [contradiction |].
  cbn [walk] in Hw. cbn [descend hd] in *.
  destruct (TreeNode.children (rootTree r) !! name) as [c|] eqn:Hc; [| discriminate].
  rewrite Root_get_static by (try apply Hni; try assumption; now left).
  unfold childFor. rewrite Hc.
  destruct (descendFrom_walk rest
              (createProxy [SegStatic name] VUndefined c (rootOptions r) (TreeNode.meta c))
              n Hw)
    as (p' & Hd & Ht & Hs & Ho & Hq'); [intros; apply Hni; now right | reflexivity |].
  exists p'. repeat split; assumption.
Qed.

Lemma keyOf_static (seg : string) : isParamSegment seg = false -> keyOf seg = seg.
Proof. unfold keyOf. now intros ->. Qed.

Lemma buildPath_static (names : list string) :
  buildPath (map SegStatic names) VUndefined false = "/" +:+ join "/" names.
Proof.
  unfold buildPath. cbn [noQuery truthy negb orb].
  rewrite map_map. cbn [segmentValue]. rewrite map_id.
  now rewrite append_empty_r.
Qed.

Lemma plainTable_definition (defs : list RouteDefinition) (def : RouteDefinition) :
  plainTable defs = true -> In def defs -> plainDefinition def = true.
Proof.
  unfold plainTable. rewrite forallb_forall. intros H Hin. now apply H.
Qed.

Lemma plainTable_segment (defs : list RouteDefinition) (def : RouteDefinition)
    (seg : string) :
  plainTable defs = true -> In def defs -> In seg (routeSegments def) ->
  ~ In (if isParamSegment seg then slice1 seg else seg) inheritedNames.
Proof.
  intros Hplain Hin Hseg.
  pose proof (plainTable_definition defs def Hplain Hin) as Hsegs.
  unfold plainDefinition in Hsegs.
  rewrite forallb_forall in Hsegs. specialize (Hsegs seg Hseg).
  unfold plainSegment in Hsegs. apply negb_true_iff in Hsegs.
  now apply isInherited_false.
Qed.

Lemma plainTable_static (defs : list RouteDefinition) (def : RouteDefinition)
    (seg : string) :
  plainTable defs = true -> In def defs -> In seg (routeSegments def) ->
  isParamSegment seg = false -> ~ In seg inheritedNames.
Proof.
  intros Hplain Hin Hseg Hstatic.
  pose proof (plainTable_segment defs def seg Hplain Hin Hseg) as H.
  now rewrite Hstatic in H.
Qed.

(** C8, amended.  In a table that keeps clear of the names plain objects
    inherit, for a declared route with at least one segment, all of them
    static and none of them a property name the proxies answer themselves
    ([$index] in first place included), descending from the root segment by
    segment reaches a proxy which, without trailing slash, renders ['/']
    followed by the segments joined by ['/'].  This is the declared path
    string when the declared path is written in that normal form. *)
Theorem static_route_round_trip (defs : list RouteDefinition) (o : RoutishOptions)
    (def : RouteDefinition) :
  plainTable defs = true ->
  In def defs ->
  routeSegments def <> [] ->
  (forall seg, In seg (routeSegments def) ->
     isParamSegment seg = false /\ ~ In seg interceptedNames) ->
  hd "" (routeSegments def) <> "$index" ->
  trailingSlashOf o = false ->
  exists p,
    descend (proxy (createRoutes defs o)) (routeSegments def) = Some p /\
    Proxy_toString p = Ok ("/" +:+ join "/" (routeSegments def)) /\
    (RouteConfig.path (configOf def) = "/" +:+ join "/" (routeSegments def) ->
     Proxy_toString p = Ok (RouteConfig.path (configOf def))).
Proof.
  intros Hplain Hin Hne Hstatic Hidx Hts.
  destruct (buildTree_declared defs def Hin) as (n & Hw & Hterm).
  assert (Hkeys : routeKeys def = routeSegments def).
  { unfold routeKeys. rewrite <- (map_id (routeSegments def)) at 2.
    apply map_ext_in. intros seg Hseg. apply keyOf_static, Hstatic, Hseg. }
  rewrite Hkeys in Hw.
  destruct (descend_walk (proxy (createRoutes defs o)) (routeSegments def) n Hne Hw)
    as (p & Hd & Ht & Hs & Ho & Hq); [| exact Hidx |].
  { intros seg Hseg. destruct (Hstatic seg Hseg) as [Hst Hni]. split; [exact Hni |].
    exact (plainTable_static defs def seg Hplain Hin Hseg Hst). }
  exists p. split; [exact Hd |].
  assert (Hrender : Proxy_toString p = Ok ("/" +:+ join "/" (routeSegments def))).
  { unfold Proxy_toString. rewrite Ht, Hterm, Hs, Hq, Ho. cbn [negb rootOptions proxy createRoutes].
    rewrite Hts. now rewrite buildPath_static. }
  split; [exact Hrender |]. intros ->. exact Hrender.
Qed.

(** The route node that a query call on the root accessor (or on the root
    proxy itself) returns renders without a check of the root node. *)
Lemma index_call_renders_unchecked (r : RootProxy) (q : JsVal) (n : RouteNode) :
  Index_call r q = Ok n ->
  exists validated,
    toString n = buildPath [] validated (trailingSlashOf (rootOptions r)) /\
    toPattern n = buildPattern [] (trailingSlashOf (rootOptions r)).
Proof.
  unfold Index_call, createIndexNode. intros H.
  destruct (match truthy q, TreeNode.queryParser (rootTree r) with
            | true, Some qp => runParser qp q
            | _, _ => Ok q
            end) as [validated|]; [| discriminate].
  rewrite bind_Ok in H. injection H as <-. exists validated. split; reflexivity.
Qed.

(** ** The serializer *)

Lemma buildPath_without_query (segs : list Segment) (q : JsVal) (ts : bool) :
  noQuery q = true ->
  buildPath segs q ts =
    "/" +:+ join "/" (map segmentValue segs) +:+ (if ts then "/" else "").
Proof. intros Hq. unfold buildPath. now rewrite Hq. Qed.

Lemma buildPath_with_query (segs : list Segment) (e : string * JsVal) (fs : Record_)
    (ts : bool) :
  buildPath segs (VObject (e :: fs)) ts =
    ("/" +:+ join "/" (map segmentValue segs) +:+ (if ts then "/" else ""))
    +:+ "?" +:+
    join "&" (map (fun kv => urlencode (fst kv) +:+ "=" +:+ urlencode (String_ (snd kv)))
                (e :: fs)).
Proof.
  unfold buildPath, noQuery, queryString, URLSearchParams_toString. cbn [truthy negb orb].
  cbn [keys entries map length Nat.eqb]. now rewrite map_map.
Qed.

End Navigation.

(** ** The registry of named routes *)

Section NamedRegistry.

Lemma collectParams_names (c : RouteConfig.t) (segs : list string) :
  forall names pms,
    fst (collectParams c segs names pms) =
      (names ++ map slice1 (List.filter isParamSegment segs))%list.
Proof.
  induction segs as [|seg rest IH]; intros names pms; cbn [collectParams List.filter map].
  - now rewrite app_nil_r.
  - destruct (isParamSegment seg); [| apply IH].
    rewrite IH. cbn [map]. now rewrite <- app_assoc.
Qed.

(** The registry entry of a configuration. *)
Lemma namedRouteOf_fields (c : RouteConfig.t) (o : RoutishOptions) :
  let pms := snd (collectParams c (pathSegments (RouteConfig.path c)) [] []) in
  NamedRoute.pattern (namedRouteOf c o) = RouteConfig.path c /\
  NamedRoute.paramNames (namedRouteOf c o) =
    map slice1 (List.filter isParamSegment (pathSegments (RouteConfig.path c))) /\
  NamedRoute.paramParser (namedRouteOf c o) =
    match pms with [] => None | _ :: _ => Some (createObjectParser pms) end /\
  NamedRoute.queryParser (namedRouteOf c o) =
    match RouteConfig.query c with Some q => Some (createObjectParser q) | None => None end /\
  NamedRoute.meta (namedRouteOf c o) = RouteConfig.meta c /\
  NamedRoute.options (namedRouteOf c o) = o.
Proof.
  unfold namedRouteOf.
  pose proof (collectParams_names c (pathSegments (RouteConfig.path c)) [] []) as Hn.
  destruct (collectParams c (pathSegments (RouteConfig.path c)) [] []) as [names pms].
  cbn in *. subst names. repeat split; reflexivity.
Qed.

(** Every entry of the registry is the entry of a declared configuration. *)
Lemma buildNamedRoutes_lookup (defs : list RouteDefinition) (o : RoutishOptions)
    (name : string) (route : NamedRoute.t) :
  buildNamedRoutes defs o !! name = Some route ->
  exists c, In (DefConfig c) defs /\ RouteConfig.name c = Some name /\
            route = namedRouteOf c o.
Proof.
  unfold buildNamedRoutes.
  assert (H : forall (m : gmap string NamedRoute.t),
             fold_left (addNamedRoute o) defs m !! name = Some route ->
             (exists c, In (DefConfig c) defs /\ RouteConfig.name c = Some name /\
                        route = namedRouteOf c o) \/ m !! name = Some route).
  { induction defs as [|d defs IH]; intros m Hm; cbn [fold_left] in Hm; [now right |].
    destruct (IH _ Hm) as [(c & Hin & Hc) | Hd].
    - left. exists c. split; [now right | exact Hc].
    - unfold addNamedRoute in Hd. destruct d as [p|c]; [now right |].
      destruct (RouteConfig.name c) as [n|] eqn:Hname; [| now right].
      destruct (truthy_string n); [| now right].
      destruct (decide (n = name)) as [->|Hne].
      + rewrite lookup_insert_eq in Hd. injection Hd as <-.
        left. exists c. split; [now left | now split].
      + rewrite lookup_insert_ne in Hd by exact Hne. now right. }
  intros Hl. destruct (H ∅ Hl) as [Hc | He]; [exact Hc |].
  rewrite lookup_empty in He. discriminate.
Qed.

End NamedRegistry.

(** ** Navigating a route *)

Section RouteNavigation.

Variable c : RouteConfig.t.
Variable o : RoutishOptions.
Variable fs : Record_.
Variable value : string -> JsVal.

Variables (q0 rq : JsVal).

Hypothesis query_shape : q0 = VUndefined \/ exists qs, q0 = VObject qs.

Hypothesis query_resolved :
  match truthy q0, queryParserOf c with
  | true, Some qp => runParser qp q0 = Ok rq
  | _, _ => rq = q0
  end.

Lemma position_get_static (x : Position) (seg : string) :
  ~ In seg interceptedNames /\ ~ In seg inheritedNames ->
  (forall r, x = AtRoot r -> seg <> "$index") ->
  position_get x seg =
    match childFor (posTree x) seg with
    | Some child =>
        GotProxy (createProxy (posSegments x ++ [SegStatic seg]) VUndefined child
                    (posOptions x) (TreeNode.meta child))
    | None => GotUndefined
    end.
Proof.
  intros [Hni Hnh] Hidx. destruct x as [r|p]; cbn [position_get posTree posSegments posOptions].
  - rewrite Root_get_static; [reflexivity | exact Hni | now apply (Hidx r) | exact Hnh].
  - now apply Proxy_get_static.
Qed.

Lemma position_call_value (x : Position) (v q : JsVal) :
  isStringOrNumber v = true ->
  position_call x v q =
    match paramNodeOf (posTree x) with
    | Some paramNode => callParam (posSegments x) paramNode (posOptions x) v q
    | None => Throw "Invalid arguments"
    end.
Proof.
  intros Hv. destruct x as [r|p]; cbn [position_call posTree posSegments posOptions].
  - unfold Root_call. unfold isStringOrNumber in Hv |- *.
    destruct (typeof v); try discriminate;
      (destruct (paramNodeOf (rootTree r)) as [pn|]; [| reflexivity];
       now destruct (callParam [] pn (rootOptions r) v q)).
  - unfold Proxy_call. unfold isStringOrNumber in Hv |- *.
    destruct (typeof v); try discriminate; reflexivity.
Qed.

Lemma callParam_ok segs (paramNode : TreeNode.t) (opt : RoutishOptions) (x v q q' : JsVal) :
  match TreeNode.paramParser paramNode with
  | Some pp => runParser pp x = Ok v
  | None => v = x
  end ->
  match truthy q, TreeNode.queryParser paramNode with
  | true, Some qp => runParser qp q = Ok q'
  | _, _ => q' = q
  end ->
  callParam segs paramNode opt x q =
    Ok (createProxy (segs ++ [SegParam (TreeNode.paramName paramNode) (String_ v)]) q'
          paramNode opt (TreeNode.meta paramNode)).
Proof.
  intros Hv Hq. unfold callParam.
  assert (H1 : match TreeNode.paramParser paramNode with
               | Some p => runParser p x
               | None => Ok x
               end = Ok v).
  { destruct (TreeNode.paramParser paramNode); [exact Hv | now subst]. }
  rewrite H1, bind_Ok.
  assert (H2 : match truthy q, TreeNode.queryParser paramNode with
               | true, Some qp => runParser qp q
               | _, _ => Ok q
               end = Ok q').
  { destruct (truthy q), (TreeNode.queryParser paramNode); now subst. }
  now rewrite H2, bind_Ok.
Qed.

(** One step of the navigation of the route. *)
Lemma navigateStep_ok (x : Position) (seg : string) (child : TreeNode.t) (q q' : JsVal) :
  TreeNode.children (posTree x) !! keyOf seg = Some child ->
  (isParamSegment seg = true ->
   TreeNode.paramParser child = paramParserOf c (slice1 seg)) ->
  (if isParamSegment seg then supplied c fs value (slice1 seg)
   else ~ In seg interceptedNames /\ ~ In seg inheritedNames) ->
  (forall r, x = AtRoot r -> seg <> "$index") ->
  (q = VUndefined /\ q' = VUndefined) \/
  ((exists qs, q = VObject qs) /\
   match TreeNode.queryParser child with
   | Some qp => runParser qp q = Ok q'
   | None => q' = q
   end) ->
  exists p,
    navigateStep x seg (VObject fs) q = Ok p /\
    tree p = child /\
    map segmentValue (segments p) =
      (map segmentValue (posSegments x) ++ [fillWith value seg])%list /\
    options p = posOptions x /\
    query p = q'.
Proof.
  intros Hchild Hpp Hseg Hidx Hq. unfold navigateStep, fillWith.
  destruct (isParamSegment seg) eqn:Hparam.
  - rewrite (keyOf_param _ Hparam) in Hchild.
    destruct Hseg as (x0 & Hx0 & Hsn & Hv).
    cbn [get]. rewrite Hx0, (position_call_value _ _ _ Hsn).
    unfold paramNodeOf. rewrite Hchild.
    rewrite (callParam_ok _ _ _ _ (value (slice1 seg)) _ q').
    + eexists. split; [reflexivity |]. cbn [tree segments options query].
      rewrite map_app. repeat split; reflexivity.
    + now rewrite (Hpp eq_refl).
    + destruct Hq as [[-> ->] | [[qs ->] Hq]]; [reflexivity | exact Hq].
  - rewrite (keyOf_static _ Hparam) in Hchild.
    rewrite (position_get_static _ _ Hseg Hidx).
    unfold childFor. rewrite Hchild.
    destruct Hq as [[-> ->] | [[qs ->] Hq]].
    + eexists. split; [reflexivity |]. cbn [tree segments options query].
      rewrite map_app. repeat split; reflexivity.
    + unfold Proxy_call. cbn [typeof tree segments options].
      assert (H : match TreeNode.queryParser child with
                  | Some qp => runParser qp (VObject qs)
                  | None => Ok (VObject qs)
                  end = Ok q').
      { destruct (TreeNode.queryParser child); [exact Hq | now subst]. }
      rewrite H, bind_Ok.
      eexists. split; [reflexivity |]. cbn [tree segments options query].
      rewrite map_app. repeat split; reflexivity.
Qed.

Lemma query_last_step (child : TreeNode.t) :
  TreeNode.queryParser child = queryParserOf c ->
  (q0 = VUndefined /\ rq = VUndefined) \/
  ((exists qs, q0 = VObject qs) /\
   match TreeNode.queryParser child with
   | Some qp => runParser qp q0 = Ok rq
   | None => rq = q0
   end).
Proof.
  intros Hqp. pose proof query_resolved as Hr.
  destruct query_shape as [Hq | [qs Hq]]; rewrite Hq in *.
  - left. split; [reflexivity | exact Hr].
  - right. split; [eauto |]. rewrite Hqp. cbn [truthy] in Hr. exact Hr.
Qed.

(** The navigation of the route, step after step. *)
Lemma navigateFrom_ok (segs : list string) :
  forall x,
    segs <> [] ->
    ownValidators c segs (posTree x) ->
    (forall seg, In seg segs ->
       if isParamSegment seg then supplied c fs value (slice1 seg)
       else ~ In seg interceptedNames /\ ~ In seg inheritedNames) ->
    (forall r, x = AtRoot r -> hd "" segs <> "$index") ->
    exists p,
      navigateFrom x segs (VObject fs) q0 = Ok (AtProxy p) /\
      walk (map keyOf segs) (posTree x) = Some (tree p) /\
      map segmentValue (segments p) =
        (map segmentValue (posSegments x) ++ map (fillWith value) segs)%list /\
      options p = posOptions x /\
      query p = rq.
Proof.
  induction segs as [|seg rest IH]; intros x Hne Hown Hsegs Hidx; [contradiction |].
  cbn [ownValidators] in Hown.
  destruct (TreeNode.children (posTree x) !! keyOf seg) as [child|] eqn:Hchild;
    [| contradiction].
  destruct Hown as [Hpp Hown]. cbn [navigateFrom map walk]. rewrite Hchild.
  destruct rest as [|seg2 rest].
  - cbn [ownValidators] in Hown.
    destruct (navigateStep_ok x seg child q0 rq Hchild Hpp)
      as (p & Hstep & Ht & Hs & Ho & Hq);
      [apply Hsegs; now left | exact Hidx | now apply query_last_step |].
    exists p. rewrite Hstep, bind_Ok. cbn [navigateFrom walk map].
    repeat split; try assumption. now rewrite Ht.
  - destruct (navigateStep_ok x seg child VUndefined VUndefined Hchild Hpp)
      as (p & Hstep & Ht & Hs & Ho & Hq);
      [apply Hsegs; now left | exact Hidx | now left |].
    rewrite Hstep, bind_Ok.
    destruct (IH (AtProxy p)) as (p' & Hnav & Hw & Hs' & Ho' & Hq');
      [discriminate | cbn [posTree]; now rewrite Ht
      | intros; apply Hsegs; now right | discriminate |].
    exists p'. cbn [posTree posSegments posOptions] in *.
    rewrite Ht in Hw. repeat split; try assumption; try congruence.
    rewrite Hs', Hs. now rewrite <- app_assoc.
Qed.

End RouteNavigation.

(** ** The statements on concrete route tables *)

Section Concrete.

Import Example.




Lemma runParser_dispatch_witness :
  runParser (ParserFunction double) (VNumber 21) = Ok (VNumber 42) /\
  runParser (ParserObject both_shapes) (VNumber 21) = Ok (VNumber 42) /\
  runParser (ParserObject yup_shape) (VNumber 21) = Ok (VNumber (-21)) /\
  runParser (ParserObject decoder_shape) (VNumber 21) = Ok (VNumber 21) /\
  (exists msg,
     runParser (ParserObject decoder_shape) (VBool true) = Throw msg /\
     includes msg (jsonQuote "no number") = true) /\
  runParser (ParserObject no_shape) (VNumber 21) = Throw invalid_parser_message.
Proof.
  assert (Hno_parse : forall props v, assoc "parse" props = Some (PropValue v) \/
                                      assoc "parse" props = None -> lacks props "parse").
  { intros props v [H | H] f Hf; unfold exposes in Hf; congruence. }
  pose proof (runParser_dispatch (VNumber 21)) as (Hfun & Hparse & Hvalidate & Hdecode & Hnone).
  pose proof (runParser_dispatch (VBool true)) as (_ & _ & _ & Hdecode' & _).
  split; [exact (Hfun double) |].
  split; [exact (Hparse both_shapes double eq_refl) |].
  split.
  { apply (Hvalidate yup_shape negate); [| reflexivity].
    intros f Hf. discriminate Hf. }
  split.
  { destruct (Hdecode decoder_shape decodeNumber) as (Hright & _ & _);
      [intros f Hf; discriminate Hf | intros f Hf; discriminate Hf | reflexivity |].
    exact (Hright _ eq_refl eq_refl). }
  split.
  { destruct (Hdecode' decoder_shape decodeNumber) as (_ & Hleft & _);
      [intros f Hf; discriminate Hf | intros f Hf; discriminate Hf | reflexivity |].
    exact (Hleft _ eq_refl eq_refl). }
  apply (Hnone no_shape); intros f Hf; discriminate Hf.
Defined.

(** C7, as stated, fails: of ['/a/:x'] and ['/a/:y'], declared in this order,
    the shared node keeps the first name, [x]. *)
Lemma last_declared_name_does_not_win :
  walk ["a"; PARAM_KEY] (buildTree two_names_table) =
    Some (nodeAt ["a"; PARAM_KEY] two_names_table) /\
  TreeNode.paramName (nodeAt ["a"; PARAM_KEY] two_names_table) = Some "x" /\
  TreeNode.paramName (nodeAt ["a"; PARAM_KEY] two_names_table) <> Some "y".
Proof. split; [reflexivity |]. split; [reflexivity | discriminate]. Qed.

Lemma param_edge_first_name_last_parser_witness :
  plainTable two_names_table = true /\
  TreeNode.paramName (nodeAt ["a"; PARAM_KEY] two_names_table) = Some "x" /\
  TreeNode.paramParser (nodeAt ["a"; PARAM_KEY] two_names_table) = Some upper.
Proof.
  split; [reflexivity |].
  destruct (param_edge_first_name_last_parser two_names_table ["a"; PARAM_KEY]
              (nodeAt ["a"; PARAM_KEY] two_names_table) eq_refl eq_refl)
    as (_ & Hname & Hparser).
  split; [exact Hname | exact Hparser].
Defined.

(** C8, as stated, fails: the static route declared as ['/about/'] renders
    as ['/about']. *)
Lemma trailing_slash_path_does_not_round_trip :
  exists p,
    descend (proxy (createRoutes about_table default_options))
      (routeSegments (DefConfig about_config)) = Some p /\
    Proxy_toString p = Ok "/about" /\
    RouteConfig.path about_config = "/about/" /\
    Proxy_toString p <> Ok (RouteConfig.path about_config).
Proof.
  eexists. split; [reflexivity |]. split; [reflexivity |]. split; [reflexivity | discriminate].
Qed.

Lemma static_route_round_trip_witness :
  plainTable static_table = true /\
  exists p,
    descend (proxy (createRoutes static_table default_options))
      (routeSegments (DefPath "/users/settings/profile")) = Some p /\
    Proxy_toString p = Ok ("/" +:+ join "/" (routeSegments (DefPath "/users/settings/profile"))) /\
    (RouteConfig.path (configOf (DefPath "/users/settings/profile")) =
       "/" +:+ join "/" (routeSegments (DefPath "/users/settings/profile")) ->
     Proxy_toString p = Ok (RouteConfig.path (configOf (DefPath "/users/settings/profile")))).
Proof.
  split; [reflexivity |].
  apply (static_route_round_trip static_table default_options (DefPath "/users/settings/profile")).
  - reflexivity.
  - cbn. tauto.
  - discriminate.
  - intros seg Hseg. cbn in Hseg.
    destruct Hseg as [<- | [<- | [<- | []]]]; (split; [reflexivity |]); cbn; intuition discriminate.
  - discriminate.
  - reflexivity.
Defined.

(** C10, as stated, fails: with only ['/users/:id/getMeta'] declared, the
    name [getMeta] is no static child of the node of [users] and is a child
    of its parametric child, yet [routes.users.getMeta] is the function
    [getMeta] of the proxy, not a proxy on the grandchild. *)
Lemma intercepted_name_is_not_descended :
  TreeNode.children (tree meta_users) !! "getMeta" = None /\
  paramNodeOf (tree meta_users) = Some (nodeAt ["users"; PARAM_KEY] meta_table) /\
  TreeNode.children (nodeAt ["users"; PARAM_KEY] meta_table) !! "getMeta" =
    Some (nodeAt ["users"; PARAM_KEY; "getMeta"] meta_table) /\
  Navigated (proxy (createRoutes meta_table default_options)) ["users"] ["users"] meta_users /\
  Proxy_get meta_users (PropName "getMeta") = GotGetMeta None /\
  Proxy_get meta_users (PropName "getMeta") <>
    GotProxy (createProxy [SegStatic "users"; SegStatic "getMeta"] VUndefined
                (nodeAt ["users"; PARAM_KEY; "getMeta"] meta_table) default_options None).
Proof.
  split; [reflexivity |]. split; [reflexivity |]. split; [reflexivity |].
  split.
  { exact (navigated_root_get (proxy (createRoutes meta_table default_options))
             "users" meta_users eq_refl). }
  split; [reflexivity | discriminate].
Qed.

Lemma static_descent_skips_param_witness :
  Proxy_get users_proxy (PropName "posts") = GotProxy users_posts_proxy /\
  Proxy_toString users_posts_proxy = Ok "/users/posts" /\
  Proxy_toPattern users_posts_proxy = Ok "/users/posts".
Proof.
  destruct (static_descent_skips_param (nodeAt ["users"] posts_table) "posts"
              (nodeAt ["users"; PARAM_KEY] posts_table)
              (nodeAt ["users"; PARAM_KEY; "posts"] posts_table)) as [Hproxy _].
  - cbn. intuition discriminate.
  - cbn. intuition discriminate.
  - reflexivity.
  - reflexivity.
  - reflexivity.
  - destruct (Hproxy users_proxy eq_refl) as [Hget Hrender].
    split; [exact Hget |]. exact (Hrender eq_refl).
Defined.

(** C6 at the failing input: with the trailing-slash option and no segment,
    [buildPath] renders two slashes, and so does the root accessor of a
    table that declares the root route. *)
Lemma buildPath_root_trailing_slash :
  buildPath [] VUndefined true = "//" /\
  Index_toString (proxy (createRoutes [DefPath "/"] trailing_options)) = Ok "//".
Proof. split; reflexivity. Qed.

(** C2 at the failing input: for the named route ['/users/:userId'] and the
    parameter [userId = 'abc'], navigation renders ['/users/abc'], while the
    named lookup raises a [TypeError] at the read of the metadata and
    renders nothing. *)
Lemma named_lookup_raises_where_navigation_renders :
  navigateAndRender (proxy (createRoutes user_table default_options))
    (routeSegments (DefConfig user_config)) (VObject [("userId", VString "abc")]) VUndefined
    = Ok "/users/abc" /\
  getRouteByName (createRoutes user_table default_options) "user"
    (VObject [("userId", VString "abc")]) VUndefined = Throw proxy_get_invariant_message /\
  startsWith proxy_get_invariant_message "TypeError" = true.
Proof. split; [reflexivity |]. split; reflexivity. Qed.

(** C9 at the failing input: for the named route ['/users/:userId'] and
    parameters that omit [userId], the named lookup raises a [TypeError] at
    the read of the metadata; no path is rendered. *)
Lemma named_lookup_raises_on_omitted_param :
  In "userId" (paramNamesOf user_config) /\
  assoc "userId" ([] : Record_) = None /\
  getRouteByName (createRoutes user_table default_options) "user" (VObject []) VUndefined
    = Throw proxy_get_invariant_message /\
  startsWith proxy_get_invariant_message "TypeError" = true.
Proof. split; [cbn; tauto |]. split; [reflexivity |]. split; reflexivity. Qed.

End Concrete.

(* ================================================================== *)
(** * Further properties of the code *)
(* ================================================================== *)

(** ** The parser adapter and the combined validator *)

Section AdapterEdges.

Lemma readTag_inv (result tag : JsVal) :
  readTag result = Ok tag -> tag = get result "_tag".
Proof. destruct result; cbn; intros H; try discriminate; now injection H as <-. Qed.

(** The only tag a [decode] result passes with is the string [Right]. *)
Lemma tag_Right_only (tag x v : JsVal) (msg : string) :
  match tag with VString "Right" => Ok x | _ => Throw msg end = Ok v ->
  tag = VString "Right" /\ v = x.
Proof.
  intros H. destruct tag as [| | | |s|]; try discriminate.
  do 6 (destruct s as [|[[] [] [] [] [] [] [] []] s]; try discriminate).
  injection H as <-. split; reflexivity.
Qed.

(** X1. A [decode]-style validator passes only on the tag [Right]: when
    [runParser] returns a value through [decode], the decode result is
    tagged exactly [Right] and the value is its [right] payload; every other
    result, whatever its shape, raises. *)
Theorem runParser_decode_fail_closed (props : list (string * Property))
    (decode : JsFunction) (raw v : JsVal) :
  method props "parse" = None ->
  method props "validateSync" = None ->
  method props "decode" = Some decode ->
  runParser (ParserObject props) raw = Ok v ->
  exists result,
    decode raw = Ok result /\
    get result "_tag" = VString "Right" /\
    v = get result "right".
Proof.
  intros Hp Hv Hd. cbn [runParser]. rewrite Hp, Hv, Hd.
  destruct (decode raw) as [result|msg]; [| discriminate]. rewrite bind_Ok.
  destruct (readTag result) as [tag|] eqn:Ht; [| discriminate]. rewrite bind_Ok.
  apply readTag_inv in Ht. intros H. exists result. split; [reflexivity |].
  apply tag_Right_only in H as [Htag ->]. split; [congruence | reflexivity].
Qed.

Lemma parseEntries_agree (es : ParserMap) (fs1 fs2 : Record_) :
  (forall k, In k (map fst es) -> assoc k fs1 = assoc k fs2) ->
  forall acc, parseEntries es (VObject fs1) acc = parseEntries es (VObject fs2) acc.
Proof.
  induction es as [|[key parser] es IH]; intros H acc; [reflexivity |].
  cbn [parseEntries]. unfold has_key. cbn [get].
  rewrite (H key (or_introl eq_refl)).
  assert (Hrest : forall k, In k (map fst es) -> assoc k fs1 = assoc k fs2)
    by (intros k Hk; apply H; now right).
  destruct (assoc key fs2) as [x|]; [| now apply IH].
  destruct (runParser parser x) as [v|msg]; [| reflexivity].
  rewrite !bind_Ok. now apply IH.
Qed.

(** X2. The combined validator reads its input only at the keys of the
    parser map: two records that agree on those keys get the same result,
    whatever other keys they hold and in whatever order. *)
Theorem createObjectParser_reads_declared_keys (pm : ParserMap) (fs1 fs2 : Record_) :
  (forall k, In k (map fst pm) -> assoc k fs1 = assoc k fs2) ->
  runParser (createObjectParser pm) (VObject fs1) =
  runParser (createObjectParser pm) (VObject fs2).
Proof.
  intros H. rewrite !runParser_createObjectParser. unfold objectParse.
  now rewrite (parseEntries_agree pm fs1 fs2 H).
Qed.

Lemma parseEntries_first_failure (pre post : ParserMap) (key : string) (parser : Parser)
    (fs : Record_) (x : JsVal) (msg : string) :
  Forall (letsPass fs) pre ->
  assoc key fs = Some x ->
  runParser parser x = Throw msg ->
  forall acc, parseEntries (pre ++ (key, parser) :: post)%list (VObject fs) acc = Throw msg.
Proof.
  intros Hpre Hx Hrun. induction Hpre as [|[k p] pre Hk _ IH]; intros acc.
  - cbn [app parseEntries]. unfold has_key. cbn [get]. now rewrite Hx, Hrun.
  - cbn [app parseEntries]. unfold has_key, letsPass in *. cbn [get fst snd] in *.
    destruct (assoc k fs) as [y|]; [| apply IH].
    destruct Hk as [v ->]. rewrite bind_Ok. apply IH.
Qed.

(** X3. The combined validator stops at the first validator that rejects,
    in the order of the parser map: when the entries before [key] let the
    input pass (the validator accepts the value the input holds under the
    entry's key, or the input has no property under that key, neither of
    its own nor inherited) and the validator of [key] raises on the value
    the input holds under [key], that error is the result, whatever the
    later entries would do. *)
Theorem createObjectParser_first_failure (pre post : ParserMap) (key : string)
    (parser : Parser) (fs : Record_) (x : JsVal) (msg : string) :
  Forall (letsPass fs) pre ->
  assoc key fs = Some x ->
  runParser parser x = Throw msg ->
  runParser (createObjectParser (pre ++ (key, parser) :: post)%list) (VObject fs) = Throw msg.
Proof.
  intros Hpre Hx Hrun. rewrite runParser_createObjectParser. unfold objectParse.
  now rewrite (parseEntries_first_failure pre post key parser fs x msg Hpre Hx Hrun).
Qed.

(** X4. Inputs that are no records.  The combined validator of an empty
    parser map returns the empty record for every input, [undefined],
    [null] and primitives included; with at least one entry, an input that
    is not an object raises before any validator is called (the [in]
    operator needs an object), whatever the validators are. *)
Theorem createObjectParser_non_record_input :
  (forall v, runParser (createObjectParser []) v = Ok (VObject [])) /\
  (forall key parser rest v,
      (forall fs, v <> VObject fs) ->
      exists msg,
        runParser (createObjectParser ((key, parser) :: rest)) v = Throw msg /\
        startsWith msg "TypeError" = true).
Proof.
  split; [reflexivity |].
  intros key parser rest v Hv. exists (in_operator_message key). split; [| reflexivity].
  rewrite runParser_createObjectParser. unfold objectParse. cbn [parseEntries].
  destruct v; try reflexivity. now destruct (Hv fields).
Qed.

End AdapterEdges.

(** ** The shape of the built trie *)

Section TrieShape.

Lemma segmentAt_passes (segs ks : list string) (seg : string) :
  segmentAt segs ks = Some seg ->
  ks <> [] /\ exists rest, map keyOf segs = (ks ++ rest)%list.
Proof.
  revert ks. induction segs as [|s segs IH]; intros ks H; [discriminate |].
  destruct ks as [|k ks]; [discriminate |]. split; [discriminate |].
  cbn [segmentAt] in H. destruct (String.eqb_spec (keyOf s) k) as [<-|]; [| discriminate].
  destruct ks as [|k' ks].
  - exists (map keyOf segs). reflexivity.
  - destruct (IH _ H) as [_ [rest Hrest]]. exists rest. cbn [map app]. now rewrite Hrest.
Qed.

Lemma insert_walk_new (config : RouteConfig.t) (segs ks : list string) (node : TreeNode.t) :
  is_Some (walk ks (insertSegments config segs node)) ->
  is_Some (walk ks node) \/ is_Some (segmentAt segs ks).
Proof.
  intros Hs. destruct (walk ks node) as [n0|] eqn:Hn0; [left; eauto |].
  destruct (segmentAt segs ks) as [seg|] eqn:Hseg; [right; eauto |].
  rewrite (insert_walk_None config segs node ks Hn0 Hseg) in Hs.
  destruct Hs; discriminate.
Qed.

Lemma fold_walk_new (defs : list RouteDefinition) (ks : list string) :
  forall t,
    is_Some (walk ks (fold_left addDefinition defs t)) ->
    is_Some (walk ks t) \/ exists def, In def defs /\ is_Some (arrivesWith ks def).
Proof.
  induction defs as [|d defs IH]; intros t Hs; cbn [fold_left] in Hs; [now left |].
  destruct (IH _ Hs) as [Hd | (def & Hin & Ha)].
  - rewrite addDefinition_insert in Hd.
    destruct (insert_walk_new _ _ _ _ Hd) as [H | H]; [now left |].
    right. exists d. split; [now left | exact H].
  - right. exists def. split; [now right | exact Ha].
Qed.

Lemma walk_prefix (ks rest : list string) (t : TreeNode.t) :
  is_Some (walk (ks ++ rest) t) -> is_Some (walk ks t).
Proof.
  rewrite walk_app. destruct (walk ks t); [eauto | intros [? H]; discriminate].
Qed.

(** The positions of the built trie. *)
Lemma buildTree_positions (defs : list RouteDefinition) (ks : list string) :
  is_Some (walk ks (buildTree defs)) <->
  ks = [] \/ exists def, In def defs /\ passesThrough ks def.
Proof.
  split.
  - intros Hs. destruct (fold_walk_new defs ks (newNode None) Hs) as [[n Hn] | (def & Hin & [seg Hseg])].
    + left. now apply walk_newNode in Hn as [-> _].
    + right. exists def. split; [exact Hin |].
      apply segmentAt_passes in Hseg as [_ Hrest]. exact Hrest.
  - intros [-> | (def & Hin & rest & Hrest)]; [eexists; reflexivity |].
    destruct (buildTree_declared defs def Hin) as (n & Hn & _).
    rewrite Hrest in Hn. apply (walk_prefix ks rest). eauto.
Qed.

(** X5. The trie of a table that keeps clear of the names plain objects
    inherit holds the declared routes and nothing else: a position other
    than the root exists in the trie exactly when some definition of the
    table passes through it. *)
Theorem trie_holds_declared_prefixes (defs : list RouteDefinition) (ks : list string) :
  plainTable defs = true ->
  is_Some (walk ks (buildTree defs)) <->
  ks = [] \/ exists def, In def defs /\ passesThrough ks def.
Proof. intros _. apply buildTree_positions. Qed.

(** X6. Navigation has no dead end: in the trie of a table that keeps clear
    of the names plain objects inherit, a node other than the root that has
    no child is terminal. *)
Theorem leaves_are_terminal (defs : list RouteDefinition) (ks : list string)
    (n : TreeNode.t) :
  plainTable defs = true ->
  ks <> [] ->
  walk ks (buildTree defs) = Some n ->
  TreeNode.children n = ∅ ->
  TreeNode.isTerminal n = true.
Proof.
  intros _ Hne Hn Hleaf.
  destruct (proj1 (buildTree_positions defs ks)) as [-> | (def & Hin & rest & Hrest)];
    [eauto | contradiction |].
  destruct rest as [|k rest].
  - rewrite app_nil_r in Hrest. apply (buildTree_terminal_iff defs ks n Hn). eauto.
  - exfalso. destruct (buildTree_declared defs def Hin) as (n' & Hn' & _).
    rewrite Hrest, walk_app, Hn in Hn'. cbn in Hn'.
    rewrite Hleaf, lookup_empty in Hn'. discriminate.
Qed.

(** The query parser and the meta of a node after an insertion. *)
Lemma queryParser_markTerminal (c : RouteConfig.t) (node : TreeNode.t) :
  TreeNode.queryParser (markTerminal c node) =
    match queryParserOf c with Some q => Some q | None => TreeNode.queryParser node end.
Proof.
  unfold markTerminal, queryParserOf.
  destruct (RouteConfig.query c), (RouteConfig.meta c); reflexivity.
Qed.

Lemma meta_markTerminal (c : RouteConfig.t) (node : TreeNode.t) :
  TreeNode.meta (markTerminal c node) =
    match RouteConfig.meta c with Some m => Some m | None => TreeNode.meta node end.
Proof.
  unfold markTerminal.
  destruct (RouteConfig.query c), (RouteConfig.meta c); reflexivity.
Qed.

Lemma queryParser_enterChild (c : RouteConfig.t) (seg : string) (node : TreeNode.t) :
  TreeNode.queryParser (enterChild c seg node) =
    match TreeNode.children node !! keyOf seg with
    | Some child => TreeNode.queryParser child
    | None => None
    end.
Proof.
  unfold enterChild.
  destruct (TreeNode.children node !! keyOf seg) as [child|];
    destruct (declaredParser c seg); reflexivity.
Qed.

Lemma meta_enterChild (c : RouteConfig.t) (seg : string) (node : TreeNode.t) :
  TreeNode.meta (enterChild c seg node) =
    match TreeNode.children node !! keyOf seg with
    | Some child => TreeNode.meta child
    | None => None
    end.
Proof.
  unfold enterChild.
  destruct (TreeNode.children node !! keyOf seg) as [child|];
    destruct (declaredParser c seg); reflexivity.
Qed.

Lemma before_enterChild {A} (field : TreeNode.t -> option A) (c : RouteConfig.t)
    (seg : string) (node : TreeNode.t) (ks : list string) :
  field (enterChild c seg node) =
    match TreeNode.children node !! keyOf seg with
    | Some child => field child
    | None => None
    end ->
  before field ks (enterChild c seg node) = before field (keyOf seg :: ks) node.
Proof.
  intros Hf. unfold before. destruct ks as [|k ks].
  - cbn [walk]. rewrite Hf. now destruct (TreeNode.children node !! keyOf seg).
  - now rewrite walk_cons_enterChild.
Qed.

Lemma insert_attached (c : RouteConfig.t) (segs : list string) :
  forall node ks n,
    walk ks (insertSegments c segs node) = Some n ->
    TreeNode.queryParser n =
      match (if bool_decide (map keyOf segs = ks) then queryParserOf c else None) with
      | Some q => Some q
      | None => before TreeNode.queryParser ks node
      end /\
    TreeNode.meta n =
      match (if bool_decide (map keyOf segs = ks) then RouteConfig.meta c else None) with
      | Some m => Some m
      | None => before TreeNode.meta ks node
      end.
Proof.
  induction segs as [|seg rest IH]; intros node ks n Hw.
  - destruct ks as [|k ks].
    + cbn [walk insertSegments] in Hw. apply (inj Some) in Hw. subst n.
      rewrite queryParser_markTerminal, meta_markTerminal. cbn [map].
      rewrite bool_decide_eq_true_2 by reflexivity. split; reflexivity.
    + cbn [insertSegments] in Hw. rewrite walk_cons_markTerminal in Hw.
      cbn [map]. rewrite bool_decide_eq_false_2 by discriminate.
      unfold before. rewrite Hw. split; reflexivity.
  - destruct ks as [|k ks].
    + cbn [walk] in Hw. apply (inj Some) in Hw. subst n.
      rewrite insertSegments_cons. cbn [map].
      rewrite bool_decide_eq_false_2 by discriminate. split; reflexivity.
    + destruct (decide (k = keyOf seg)) as [->|Hne].
      * rewrite walk_insert_same in Hw. destruct (IH _ _ _ Hw) as [Hq Hm].
        rewrite (before_enterChild TreeNode.queryParser) in Hq
          by apply queryParser_enterChild.
        rewrite (before_enterChild TreeNode.meta) in Hm by apply meta_enterChild.
        cbn [map]. destruct (decide (map keyOf rest = ks)) as [Heq | Hneq].
        -- rewrite bool_decide_eq_true_2 in Hq, Hm by exact Heq.
           rewrite bool_decide_eq_true_2 by congruence. now split.
        -- rewrite bool_decide_eq_false_2 in Hq, Hm by exact Hneq.
           rewrite bool_decide_eq_false_2 by congruence. now split.
      * rewrite walk_insert_other in Hw by exact Hne. cbn [map].
        rewrite bool_decide_eq_false_2 by congruence.
        unfold before. rewrite Hw. split; reflexivity.
Qed.

Lemma fold_attached (defs : list RouteDefinition) (pos : list string) :
  forall t n,
    walk pos (fold_left addDefinition defs t) = Some n ->
    TreeNode.queryParser n =
      match lastSome (map (attachedQuery pos) defs) with
      | Some q => Some q
      | None => before TreeNode.queryParser pos t
      end /\
    TreeNode.meta n =
      match lastSome (map (attachedMeta pos) defs) with
      | Some m => Some m
      | None => before TreeNode.meta pos t
      end.
Proof.
  induction defs as [|d defs IH]; intros t n Hw; cbn [fold_left] in Hw.
  - cbn [map lastSome]. unfold before. rewrite Hw. split; reflexivity.
  - destruct (IH _ _ Hw) as [Hq Hm]. rewrite Hq, Hm. clear IH Hq Hm Hw n.
    cbn [map lastSome]. rewrite addDefinition_insert.
    assert (Hstep : forall A (field : TreeNode.t -> option A) (own : option A),
              (forall n1, walk pos (insertSegments (configOf d) (routeSegments d) t) = Some n1 ->
                 field n1 =
                   match (if bool_decide (map keyOf (routeSegments d) = pos) then own else None) with
                   | Some x => Some x
                   | None => before field pos t
                   end) ->
              before field pos (insertSegments (configOf d) (routeSegments d) t) =
                match (if bool_decide (map keyOf (routeSegments d) = pos) then own else None) with
                | Some x => Some x
                | None => before field pos t
                end).
    { intros A field own Hfield. unfold before at 1.
      destruct (walk pos (insertSegments (configOf d) (routeSegments d) t)) as [n1|] eqn:Hn1;
        [now apply Hfield |].
      destruct (decide (map keyOf (routeSegments d) = pos)) as [Heq | Hneq].
      - destruct (insert_walk_own (configOf d) (routeSegments d) t) as [n1 H1].
        rewrite Heq in H1. congruence.
      - rewrite bool_decide_eq_false_2 by exact Hneq. unfold before.
        destruct (walk pos t) as [n0|] eqn:Hn0; [| reflexivity].
        destruct (insert_walk_keeps (configOf d) (routeSegments d) t pos) as [n1 H1];
          [eauto | congruence]. }
    split.
    + destruct (lastSome (map (attachedQuery pos) defs)); [reflexivity |].
      unfold attachedQuery, endsAt, routeKeys.
      apply Hstep. intros n1 Hn1. now destruct (insert_attached _ _ _ _ _ Hn1).
    + destruct (lastSome (map (attachedMeta pos) defs)); [reflexivity |].
      unfold attachedMeta, endsAt, routeKeys.
      apply Hstep. intros n1 Hn1. now destruct (insert_attached _ _ _ _ _ Hn1).
Qed.

Lemma buildTree_attached (defs : list RouteDefinition) (pos : list string) (n : TreeNode.t) :
  walk pos (buildTree defs) = Some n ->
  TreeNode.queryParser n = lastSome (map (attachedQuery pos) defs) /\
  TreeNode.meta n = lastSome (map (attachedMeta pos) defs).
Proof.
  intros Hw. destruct (fold_attached defs pos _ _ Hw) as [Hq Hm]. rewrite Hq, Hm.
  assert (Hb : forall A (field : TreeNode.t -> option A),
             field (newNode None) = None -> before field pos (newNode None) = None).
  { intros A field Hf. unfold before.
    destruct (walk pos (newNode None)) as [n0|] eqn:Hn0; [| reflexivity].
    now apply walk_newNode in Hn0 as [_ ->]. }
  rewrite !Hb by reflexivity. clear.
  split; [now destruct (lastSome (map (attachedQuery pos) defs))
         | now destruct (lastSome (map (attachedMeta pos) defs))].
Qed.


(** Declaring a route a second time. *)
Lemma with_paramParser_same (n : TreeNode.t) (p : option Parser) :
  TreeNode.paramParser n = p -> TreeNode.with_paramParser p n = n.
Proof. destruct n. cbn. now intros <-. Qed.

Lemma enterChild_entered (c : RouteConfig.t) (seg : string) (node child : TreeNode.t) :
  TreeNode.children node !! keyOf seg = Some child ->
  TreeNode.paramParser child =
    match declaredParser c seg with
    | Some p => Some p
    | None => TreeNode.paramParser child
    end ->
  enterChild c seg node = child.
Proof.
  intros Hc Hp. unfold enterChild. rewrite Hc.
  destruct (declaredParser c seg) as [p|]; [| reflexivity].
  now apply with_paramParser_same.
Qed.

Lemma markTerminal_idem (c : RouteConfig.t) (node : TreeNode.t) :
  markTerminal c (markTerminal c node) = markTerminal c node.
Proof.
  unfold markTerminal. destruct (RouteConfig.query c), (RouteConfig.meta c); reflexivity.
Qed.

Lemma insertSegments_idem (c : RouteConfig.t) (segs : list string) :
  forall node, insertSegments c segs (insertSegments c segs node) = insertSegments c segs node.
Proof.
  induction segs as [|seg rest IH]; intros node; [apply markTerminal_idem |].
  rewrite (insertSegments_cons c seg rest node).
  set (inner := insertSegments c rest (enterChild c seg node)).
  rewrite insertSegments_cons. cbn [TreeNode.children TreeNode.with_children].
  assert (Hentered : enterChild c seg
            (TreeNode.with_children (<[keyOf seg := inner]> (TreeNode.children node)) node)
          = inner).
  { apply enterChild_entered.
    - cbn [TreeNode.children TreeNode.with_children]. apply lookup_insert_eq.
    - unfold inner. rewrite paramParser_insert, paramParser_enterChild.
      now destruct (declaredParser c seg). }
  rewrite Hentered. unfold inner at 1. rewrite IH. fold inner.
  rewrite insert_insert_eq. reflexivity.
Qed.

Lemma addDefinition_idem (t : TreeNode.t) (def : RouteDefinition) :
  addDefinition (addDefinition t def) def = addDefinition t def.
Proof. rewrite !addDefinition_insert. apply insertSegments_idem. Qed.

(** X8. Declaring a definition twice in a row is the same as declaring it
    once: the second pass over the same path finds every node it needs and
    writes what is already there. *)
Theorem repeated_definition_changes_nothing (pre post : list RouteDefinition)
    (def : RouteDefinition) :
  buildTree (pre ++ def :: def :: post) = buildTree (pre ++ def :: post).
Proof.
  unfold buildTree. rewrite !fold_left_app. cbn [fold_left].
  now rewrite addDefinition_idem.
Qed.

(** Splitting a joined list. *)
Lemma split_plain (c : ascii) (x : string) : hasChar c x = false -> split c x = [x].
Proof.
  induction x as [|a x IH]; [reflexivity |].
  cbn [hasChar split]. intros H. apply orb_false_iff in H as [Ha Hx].
  now rewrite Ha, (IH Hx).
Qed.

Lemma split_append_sep (c : ascii) (x r : string) :
  hasChar c x = false -> split c (x +:+ String c r) = x :: split c r.
Proof.
  induction x as [|a x IH].
  - intros _. cbn. now rewrite Ascii.eqb_refl.
  - cbn [hasChar]. intros H. apply orb_false_iff in H as [Ha Hx].
    rewrite append_cons. cbn [split]. now rewrite Ha, (IH Hx).
Qed.

Lemma split_join (c : ascii) (l : list string) :
  l <> [] ->
  Forall (fun x => hasChar c x = false) l ->
  split c (join (String c "") l) = l.
Proof.
  induction l as [|x l IH]; [contradiction |]. intros _ Hl.
  inversion Hl as [|? ? Hx Hl']; subst. destruct l as [|y l].
  - cbn [join]. now apply split_plain.
  - rewrite join_cons2. change (String c "" +:+ join (String c "") (y :: l))
      with (String c (join (String c "") (y :: l))).
    rewrite (split_append_sep c x _ Hx). f_equal. apply IH; [discriminate | exact Hl'].
Qed.

Lemma split_no_sep (c : ascii) (s : string) :
  Forall (fun x => hasChar c x = false) (split c s).
Proof.
  induction s as [|a s IH]; [repeat constructor |].
  cbn [split]. destruct (Ascii.eqb a c) eqn:Ha; [now constructor |].
  pose proof (split_nonempty c s) as Hn.
  destruct (split c s) as [|h t]; [contradiction |].
  inversion IH as [|? ? Hh Ht]; subst. constructor; [| exact Ht].
  cbn [hasChar]. now rewrite Ha, Hh.
Qed.

Lemma pathSegments_shape (path : string) :
  Forall (fun x => hasChar chr_slash x = false /\ truthy_string x = true) (pathSegments path).
Proof.
  unfold pathSegments. apply List.Forall_forall. intros x Hx.
  apply filter_In in Hx as [Hx Ht]. split; [| exact Ht].
  pose proof (split_no_sep chr_slash path) as Hs.
  rewrite List.Forall_forall in Hs. now apply Hs.
Qed.

Lemma filter_all {A} (f : A -> bool) (l : list A) :
  Forall (fun x => f x = true) l -> List.filter f l = l.
Proof.
  induction 1 as [|x l Hx _ IH]; [reflexivity |].
  cbn [List.filter]. now rewrite Hx, IH.
Qed.

Lemma pathSegments_normalPath (path : string) :
  pathSegments (normalPath path) = pathSegments path.
Proof.
  pose proof (pathSegments_shape path) as Hshape. unfold normalPath.
  set (segs := pathSegments path) in *.
  change ("/" +:+ join "/" segs) with (String chr_slash (join (String chr_slash "") segs)).
  unfold pathSegments at 1. cbn [split]. rewrite Ascii.eqb_refl. cbn [List.filter truthy_string].
  destruct segs as [|x l] eqn:Hsegs; [reflexivity |].
  rewrite split_join; [| discriminate |].
  - apply filter_all. eapply List.Forall_impl; [| exact Hshape]. now intros y [_ Hy].
  - eapply List.Forall_impl; [| exact Hshape]. now intros y [Hy _].
Qed.

(** An insertion reads its configuration only at the parameter validators,
    the query validators and the meta. *)
Lemma insertSegments_ext (c1 c2 : RouteConfig.t) (segs : list string) :
  RouteConfig.params c1 = RouteConfig.params c2 ->
  RouteConfig.query c1 = RouteConfig.query c2 ->
  RouteConfig.meta c1 = RouteConfig.meta c2 ->
  forall node, insertSegments c1 segs node = insertSegments c2 segs node.
Proof.
  intros Hp Hq Hm. induction segs as [|seg rest IH]; intros node.
  - cbn [insertSegments]. unfold markTerminal. now rewrite Hq, Hm.
  - cbn [insertSegments]. unfold paramParserOf. rewrite Hp. now rewrite IH.
Qed.

Lemma addDefinition_normalized (t : TreeNode.t) (def : RouteDefinition) :
  addDefinition t (normalized def) = addDefinition t def.
Proof.
  rewrite !addDefinition_insert. unfold routeSegments.
  destruct def as [p|c]; cbn [normalized configOf RouteConfig.path];
    rewrite pathSegments_normalPath; now apply insertSegments_ext.
Qed.

(** X9. The trie depends on a declared path only through its segments:
    the normal form of a path (a slash, then the non-empty segments joined
    by slashes) has the segments of the path itself, and rewriting every
    declared path in normal form builds the same trie. *)
Theorem normal_form_builds_same_trie (defs : list RouteDefinition) :
  (forall path, pathSegments (normalPath path) = pathSegments path) /\
  buildTree (map normalized defs) = buildTree defs.
Proof.
  split; [exact pathSegments_normalPath |]. unfold buildTree.
  generalize (newNode None). induction defs as [|d defs IH]; intros t; [reflexivity |].
  cbn [map fold_left]. now rewrite addDefinition_normalized, IH.
Qed.

(** Nodes under a static key. *)
Lemma segmentAt_last_key (segs ks : list string) (k seg : string) :
  segmentAt segs (ks ++ [k])%list = Some seg -> keyOf seg = k.
Proof.
  revert ks. induction segs as [|s segs IH]; intros ks H; [destruct ks; discriminate |].
  destruct ks as [|k0 ks]; cbn [app segmentAt] in H.
  - destruct (String.eqb_spec (keyOf s) k); [| discriminate]. now injection H as <-.
  - destruct (String.eqb (keyOf s) k0); [| discriminate].
    destruct (ks ++ [k])%list as [|k1 l] eqn:Hl; [now destruct ks |].
    rewrite <- Hl in H. now apply (IH ks).
Qed.

(** X10. A node stored under a key other than the sentinel carries neither
    a parameter name nor a parameter validator: a value call can only move
    to the node under the sentinel key. *)
Theorem static_nodes_carry_no_parameter (defs : list RouteDefinition)
    (ks : list string) (k : string) (n : TreeNode.t) :
  walk (ks ++ [k])%list (buildTree defs) = Some n ->
  k <> PARAM_KEY ->
  TreeNode.paramName n = None /\ TreeNode.paramParser n = None.
Proof.
  intros Hw Hk. unfold buildTree in Hw.
  assert (Hroot : walk (ks ++ [k])%list (newNode None) = None).
  { destruct (walk (ks ++ [k])%list (newNode None)) as [n0|] eqn:Hn0; [| reflexivity].
    apply walk_newNode in Hn0 as [Hnil _]. now destruct ks. }
  assert (Hstatic : forall def seg,
            arrivesWith (ks ++ [k])%list def = Some seg -> isParamSegment seg = false).
  { intros def seg Hseg. apply segmentAt_last_key in Hseg.
    destruct (isParamSegment seg) eqn:Hp; [| reflexivity].
    rewrite (keyOf_param seg Hp) in Hseg. congruence. }
  split.
  - rewrite (fold_paramName _ _ _ _ Hw), Hroot. clear Hw Hroot.
    induction defs as [|d defs IH]; [reflexivity |]. cbn [map firstSome].
    destruct (arrivesWith (ks ++ [k])%list d) as [seg|] eqn:Hseg; [| exact IH].
    cbn. unfold declaredName. now rewrite (Hstatic d seg Hseg).
  - rewrite (fold_paramParser _ _ _ _ Hw), Hroot. clear Hw Hroot.
    assert (Hnone : lastSome (map (fun def => arrivesWith (ks ++ [k])%list def ≫=
                                              declaredParser (configOf def)) defs) = None).
    { induction defs as [|d defs IH]; [reflexivity |]. cbn [map lastSome]. rewrite IH.
      destruct (arrivesWith (ks ++ [k])%list d) as [seg|] eqn:Hseg; [| reflexivity].
      cbn. unfold declaredParser. now rewrite (Hstatic d seg Hseg). }
    now rewrite Hnone.
Qed.

End TrieShape.

(** ** Navigation: what the proxies answer *)

Section ProxyAnswers.





(** X14. A call with a query does not move.  The proxy it returns has the
    segments, the node and the options of the proxy called, so it renders
    the same pattern, every later call behaves as on the proxy called (a
    second query replaces the first, nothing is merged), and a descent from
    it is the descent from the proxy called (the query is not carried
    along). *)
Theorem query_call_keeps_position (p : Proxy) (q q' : JsVal) (p1 : Proxy) :
  typeof q = TObject ->
  Proxy_call p q q' = Ok p1 ->
  segments p1 = segments p /\ tree p1 = tree p /\ options p1 = options p /\
  Proxy_toPattern p1 = Proxy_toPattern p /\
  (forall v x, Proxy_call p1 v x = Proxy_call p v x) /\
  (forall prop, ~ In prop interceptedNames ->
     Proxy_get p1 (PropName prop) = Proxy_get p (PropName prop)).
Proof.
  intros Hq Hc. apply (Proxy_call_query_inv _ _ _ _ Hq) in Hc as (validated & _ & ->).
  repeat split; try reflexivity.
  intros prop Hni. now rewrite !Proxy_get_name by exact Hni.
Qed.

(** X15. The query call on the root is not checked against the table.
    When no root route is declared, [routes(query)] and
    [routes.$index(query)] still return a route node for ['/'], whose
    [toString] renders the path with the unvalidated query, while
    [routes.$index.toString()] fails with the root-not-defined error. *)
Theorem root_query_call_skips_terminal_check (defs : list RouteDefinition)
    (o : RoutishOptions) (qs : Record_) (x : JsVal) :
  ~ (exists def, In def defs /\ routeSegments def = []) ->
  let r := proxy (createRoutes defs o) in
  let n := createRouteNode [] (VObject qs) None (trailingSlashOf o) in
  Root_call r (VObject qs) x = Ok (inl n) /\
  Index_call r (VObject qs) = Ok n /\
  toString n = buildPath [] (VObject qs) (trailingSlashOf o) /\
  Index_toString r = Throw root_not_defined_message.
Proof.
  intros Hnone r n.
  destruct (buildTree_attached defs [] (buildTree defs) eq_refl) as [Hq Hm].
  assert (Hends : forall def, In def defs -> endsAt [] def = false).
  { intros def Hin. unfold endsAt. apply bool_decide_eq_false_2. intros Hk.
    apply Hnone. exists def. split; [exact Hin |].
    unfold routeKeys in Hk. now destruct (routeSegments def). }
  assert (HnoQ : lastSome (map (attachedQuery []) defs) = None).
  { clear - Hends. induction defs as [|d defs IH]; [reflexivity |].
    cbn [map lastSome]. rewrite IH by (intros; apply Hends; now right).
    unfold attachedQuery. now rewrite Hends by now left. }
  assert (HnoM : lastSome (map (attachedMeta []) defs) = None).
  { clear - Hends. induction defs as [|d defs IH]; [reflexivity |].
    cbn [map lastSome]. rewrite IH by (intros; apply Hends; now right).
    unfold attachedMeta. now rewrite Hends by now left. }
  rewrite HnoQ in Hq. rewrite HnoM in Hm.
  assert (Hindex : createIndexNode r (VObject qs) = Ok n).
  { unfold createIndexNode, r, n. cbn [proxy createRoutes rootTree rootOptions truthy].
    now rewrite Hq, Hm. }
  split; [unfold Root_call; cbn [typeof]; now rewrite Hindex |].
  split; [exact Hindex |]. split; [reflexivity |].
  unfold Index_toString, r. cbn [proxy createRoutes rootTree rootOptions].
  destruct (TreeNode.isTerminal (buildTree defs)) eqn:Ht; [| reflexivity].
  apply buildTree_root_terminal in Ht. contradiction.
Qed.

(** X16. No proxy is thenable, and the metadata cannot be read through the
    root proxy.  The [get] traps answer [undefined] for the key [then] and
    for every symbol other than [Symbol.toStringTag]; the root trap does so
    for [ROUTE_METADATA], which [createRoutes] has defined on the target as
    a read-only property that is not configurable.  So the read
    [routes[ROUTE_METADATA]] raises a [TypeError] on every route table, and
    with it every call of [getRouteByName] and of [getAllRoutes]: a declared
    name gets no route node, an unknown name does not get the not-found
    error, and no listing is returned. *)
Theorem metadata_read_raises (defs : list RouteDefinition) (o : RoutishOptions)
    (name : string) (params query : JsVal) :
  let routes := createRoutes defs o in
  Root_get (proxy routes) (PropName "then") = GotUndefined /\
  Index_get (proxy routes) (PropName "then") = GotUndefined /\
  (forall p y, Proxy_get p (PropName "then") = GotUndefined /\
               (y <> SymToStringTag ->
                Proxy_get p (PropSymbol y) = GotUndefined /\
                Root_get (proxy routes) (PropSymbol y) = GotUndefined /\
                Index_get (proxy routes) (PropSymbol y) = GotUndefined)) /\
  ROUTE_METADATA <> SymToStringTag /\
  writable (metadata routes) = false /\
  configurable (metadata routes) = false /\
  (forall field, readMetadata routes field = Throw proxy_get_invariant_message) /\
  getRouteByName routes name params query = Throw proxy_get_invariant_message /\
  getAllRoutes routes = Throw proxy_get_invariant_message /\
  startsWith proxy_get_invariant_message "TypeError" = true /\
  proxy_get_invariant_message <> route_not_found_message name.
Proof.
  intros routes. split; [reflexivity |]. split; [reflexivity |]. split.
  { intros p y. split; [reflexivity |]. intros Hy.
    destruct y; [contradiction | ..]; repeat split; reflexivity. }
  split; [discriminate |].
  split; [reflexivity |]. split; [reflexivity |]. split; [intros field; reflexivity |].
  repeat (split; [reflexivity |]). discriminate.
Qed.

End ProxyAnswers.

(** ** The registries *)

Section Registries.

Lemma addNamedRoute_lookup (o : RoutishOptions) (m : gmap string NamedRoute.t)
    (def : RouteDefinition) (name : string) :
  addNamedRoute o m def !! name =
    match registeredAs o name def with
    | Some route => Some route
    | None => m !! name
    end.
Proof.
  unfold addNamedRoute, registeredAs. destruct def as [p|c]; [reflexivity |].
  destruct (RouteConfig.name c) as [n|]; [| reflexivity].
  destruct (truthy_string n); [| reflexivity]. cbn [andb].
  destruct (String.eqb_spec n name) as [->|Hne].
  - apply lookup_insert_eq.
  - now apply lookup_insert_ne.
Qed.

Lemma fold_named_lookup (o : RoutishOptions) (defs : list RouteDefinition) (name : string) :
  forall m,
    fold_left (addNamedRoute o) defs m !! name =
      match lastSome (map (registeredAs o name) defs) with
      | Some route => Some route
      | None => m !! name
      end.
Proof.
  induction defs as [|d defs IH]; intros m; [reflexivity |].
  cbn [fold_left map lastSome]. rewrite IH, addNamedRoute_lookup.
  now destruct (lastSome (map (registeredAs o name) defs)).
Qed.

(** X17. The registry of named routes holds, under a name, the entry of
    the last definition that declares that name; bare path strings and
    configurations without a name, or with the empty name, are not
    registered. *)
Theorem registry_last_declaration_wins (defs : list RouteDefinition) (o : RoutishOptions)
    (name : string) :
  buildNamedRoutes defs o !! name = lastSome (map (registeredAs o name) defs).
Proof.
  unfold buildNamedRoutes. rewrite fold_named_lookup, lookup_empty.
  now destruct (lastSome _).
Qed.

(** X18. The listing reflects the definitions one by one, in their order
    and with their paths as written (not normalized, no duplicate
    removed); every route of the registry occurs in the listing under its
    name, with the same pattern and the same metadata. *)
Theorem listing_reflects_definitions (defs : list RouteDefinition) (o : RoutishOptions) :
  map RouteInfo.pattern (buildAllRoutes defs) =
    map (fun def => RouteConfig.path (configOf def)) defs /\
  map RouteInfo.name (buildAllRoutes defs) =
    map (fun def => RouteConfig.name (configOf def)) defs /\
  (forall name route,
      buildNamedRoutes defs o !! name = Some route ->
      exists info,
        In info (buildAllRoutes defs) /\
        RouteInfo.name info = Some name /\
        RouteInfo.pattern info = NamedRoute.pattern route /\
        RouteInfo.meta info = NamedRoute.meta route).
Proof.
  split; [| split].
  - unfold buildAllRoutes. rewrite map_map. apply map_ext. now intros [p|c].
  - unfold buildAllRoutes. rewrite map_map. apply map_ext. now intros [p|c].
  - intros name route Hroute.
    apply buildNamedRoutes_lookup in Hroute as (c & Hin & Hname & ->).
    destruct (namedRouteOf_fields c o) as (Hpat & _ & _ & _ & Hmeta & _).
    exists (RouteInfo.mk (RouteConfig.path c) (RouteConfig.name c) (RouteConfig.meta c)).
    split; [| now rewrite Hpat, Hmeta].
    unfold buildAllRoutes. apply in_map_iff. exists (DefConfig c). now split.
Qed.

End Registries.

(** ** Navigating a declared route *)

Section NavigatedPattern.

Variables (params query : JsVal).

Hypothesis query_shape : query = VUndefined \/ exists qs, query = VObject qs.

Lemma position_get_child (x : Position) (seg : string) (p : Proxy) :
  position_get x seg = GotProxy p ->
  exists child,
    childFor (posTree x) seg = Some child /\
    p = createProxy (posSegments x ++ [SegStatic seg])%list VUndefined child
          (posOptions x) (TreeNode.meta child).
Proof.
  destruct x as [r|p0]; cbn [position_get posTree posSegments posOptions].
  - apply Root_get_child.
  - apply Proxy_get_child.
Qed.

Lemma segmentPattern_param (seg value : string) :
  isParamSegment seg = true -> segmentPattern (SegParam (Some (slice1 seg)) value) = seg.
Proof. intros Hp. now rewrite (isParamSegment_shape seg Hp) at 2. Qed.

(** One step along a declared route, read off a successful navigation. *)
Lemma navigateStep_pattern (x : Position) (seg : string) (q : JsVal) (child : TreeNode.t)
    (p : Proxy) :
  navigateStep x seg params q = Ok p ->
  TreeNode.children (posTree x) !! keyOf seg = Some child ->
  (isParamSegment seg = true -> TreeNode.paramName child = Some (slice1 seg)) ->
  (isParamSegment seg = true -> isStringOrNumber (get params (slice1 seg)) = true) ->
  q = VUndefined \/ (exists qs, q = VObject qs) ->
  tree p = child /\
  map segmentPattern (segments p) = (map segmentPattern (posSegments x) ++ [seg])%list /\
  options p = posOptions x.
Proof.
  intros Hstep Hchild Hname Hvalue Hq. unfold navigateStep in Hstep.
  destruct (isParamSegment seg) eqn:Hparam.
  - rewrite (keyOf_param _ Hparam) in Hchild.
    rewrite (position_call_value _ _ _ (Hvalue eq_refl)) in Hstep.
    unfold paramNodeOf in Hstep. rewrite Hchild in Hstep.
    apply callParam_inv in Hstep as (value & validated & _ & _ & ->).
    cbn [tree segments options]. rewrite map_app. cbn [map].
    rewrite (Hname eq_refl), (segmentPattern_param _ _ Hparam). now repeat split.
  - rewrite (keyOf_static _ Hparam) in Hchild.
    destruct (position_get x seg) as [| | | | | |p0| |] eqn:Hget; try discriminate.
    apply position_get_child in Hget as (child0 & Hc & ->).
    unfold childFor in Hc. rewrite Hchild in Hc. injection Hc as <-.
    destruct Hq as [-> | [qs ->]].
    + injection Hstep as <-. cbn [tree segments options]. rewrite map_app. now repeat split.
    + apply Proxy_call_query_inv in Hstep as (validated & _ & ->); [| reflexivity].
      cbn [tree segments options]. rewrite map_app. now repeat split.
Qed.

Lemma navigateFrom_pattern (segs : list string) :
  forall x y,
    segs <> [] ->
    navigateFrom x segs params query = Ok y ->
    ownNames segs (posTree x) ->
    (forall seg, In seg segs -> isParamSegment seg = true ->
       isStringOrNumber (get params (slice1 seg)) = true) ->
    exists p,
      y = AtProxy p /\
      walk (map keyOf segs) (posTree x) = Some (tree p) /\
      map segmentPattern (segments p) = (map segmentPattern (posSegments x) ++ segs)%list /\
      options p = posOptions x.
Proof.
  induction segs as [|seg rest IH]; intros x y Hne Hnav Hown Hvals; [contradiction |].
  cbn [ownNames] in Hown.
  destruct (TreeNode.children (posTree x) !! keyOf seg) as [child|] eqn:Hchild;
    [| contradiction].
  destruct Hown as [Hname Hown]. cbn [navigateFrom] in Hnav.
  destruct (navigateStep x seg params
              match rest with [] => query | _ :: _ => VUndefined end) as [p|] eqn:Hstep;
    [| discriminate].
  rewrite bind_Ok in Hnav.
  destruct (navigateStep_pattern x seg _ child p Hstep Hchild Hname) as (Ht & Hs & Ho).
  { intros Hp. apply Hvals; [now left | exact Hp]. }
  { destruct rest; [exact query_shape | now left]. }
  cbn [map walk]. rewrite Hchild. destruct rest as [|seg2 rest].
  - cbn [navigateFrom] in Hnav. injection Hnav as <-. exists p.
    cbn [map walk]. rewrite Ht. now repeat split.
  - destruct (IH (AtProxy p) y) as (p' & -> & Hw & Hs' & Ho');
      [discriminate | exact Hnav | cbn [posTree]; now rewrite Ht
      | intros s Hin; apply Hvals; now right |].
    cbn [posTree posSegments posOptions] in *. exists p'.
    rewrite Ht in Hw. split; [reflexivity |]. split; [exact Hw |].
    split; [| congruence]. rewrite Hs', Hs. now rewrite <- app_assoc.
Qed.

End NavigatedPattern.

Section PatternRoundTrip.

(** X21. The pattern of a navigated route is the normal form of its
    declared path.  Let a declared route have at least one segment and let
    the trie hold the route's own parameter names along its path (they are
    those of the first definition to arrive at each parametric position).
    When the navigation along the route's segments, with a string or a
    number for every parameter and the query absent or a record, returns,
    it stands on the route's terminal node and [toPattern] renders the
    normal form of the declared path, followed by a slash under the
    trailing-slash option. *)
Theorem navigated_pattern_is_normal_form (defs : list RouteDefinition)
    (o : RoutishOptions) (def : RouteDefinition) (fs : Record_) (query : JsVal)
    (x : Position) :
  In def defs ->
  routeSegments def <> [] ->
  ownNames (routeSegments def) (buildTree defs) ->
  (forall seg, In seg (routeSegments def) -> isParamSegment seg = true ->
     isStringOrNumber (get (VObject fs) (slice1 seg)) = true) ->
  query = VUndefined \/ (exists qs, query = VObject qs) ->
  navigateFrom (AtRoot (proxy (createRoutes defs o))) (routeSegments def) (VObject fs) query
    = Ok x ->
  exists p,
    x = AtProxy p /\
    TreeNode.isTerminal (tree p) = true /\
    Proxy_toPattern p =
      Ok (normalPath (RouteConfig.path (configOf def))
          +:+ (if trailingSlashOf o then "/" else "")).
Proof.
  intros Hin Hne Hown Hvals Hq Hnav.
  destruct (navigateFrom_pattern (VObject fs) query Hq (routeSegments def) _ _ Hne Hnav
              Hown Hvals)
    as (p & -> & Hw & Hs & Ho).
  cbn [posTree posSegments posOptions proxy createRoutes rootTree rootOptions app] in *.
  destruct (buildTree_declared defs def Hin) as (n & Hn & Hterm).
  unfold routeKeys in Hn. rewrite Hw in Hn. injection Hn as <-.
  exists p. split; [reflexivity |]. split; [exact Hterm |].
  unfold Proxy_toPattern. rewrite Hterm. cbn [negb].
  unfold buildPattern, normalPath. rewrite Hs, Ho. fold (routeSegments def).
  now rewrite append_assoc.
Qed.

End PatternRoundTrip.

(** ** The query string *)

Section QueryString.

Lemma allChars_append (ok : ascii -> bool) (a b : string) :
  allChars ok (a +:+ b) = allChars ok a && allChars ok b.
Proof.
  induction a as [|x a IH]; [reflexivity |].
  rewrite append_cons. cbn [allChars]. now rewrite IH, andb_assoc.
Qed.

Lemma allChars_weaken (ok ok' : ascii -> bool) (s : string) :
  (forall a, ok a = true -> ok' a = true) ->
  allChars ok s = true -> allChars ok' s = true.
Proof.
  intros Himp. induction s as [|a s IH]; [reflexivity |].
  cbn [allChars]. intros H. apply andb_true_iff in H as [Ha Hs].
  now rewrite (Himp a Ha), (IH Hs).
Qed.

Lemma urlencodeByte_form (a : ascii) : allChars isFormChar (urlencodeByte a) = true.
Proof. destruct a as [[] [] [] [] [] [] [] []]; vm_compute; reflexivity. Qed.

Lemma urlencode_form (s : string) : allChars isFormChar (urlencode s) = true.
Proof.
  induction s as [|a s IH]; [reflexivity |].
  cbn [urlencode]. now rewrite allChars_append, urlencodeByte_form, IH.
Qed.

Lemma formChar_queryChar (a : ascii) : isFormChar a = true -> isQueryChar a = true.
Proof. unfold isQueryChar. now intros ->. Qed.

Lemma allChars_join (ok : ascii -> bool) (sep : string) (l : list string) :
  allChars ok sep = true ->
  (forall x, In x l -> allChars ok x = true) ->
  allChars ok (join sep l) = true.
Proof.
  intros Hsep. induction l as [|x l IH]; intros Hl; [reflexivity |].
  destruct l as [|y l]; [apply Hl; now left |].
  rewrite join_cons2, !allChars_append, Hsep.
  rewrite (Hl x) by now left. rewrite IH by (intros; apply Hl; now right). reflexivity.
Qed.

Lemma URLSearchParams_chars (pairs : list (string * string)) :
  allChars isQueryChar (URLSearchParams_toString pairs) = true.
Proof.
  unfold URLSearchParams_toString. apply allChars_join; [reflexivity |].
  intros x Hx. apply in_map_iff in Hx as (kv & <- & _).
  rewrite !allChars_append.
  rewrite !(allChars_weaken _ _ _ formChar_queryChar (urlencode_form _)). reflexivity.
Qed.

(** X22. The query part of a rendered path is form-urlencoded text.  With
    a query that has at least one entry, [buildPath] renders the path of
    the segments, a question mark and the query string, and the query
    string consists only of letters, digits and the characters [* - . _ +
    % = &]: no name and no value of the query can inject a slash, a
    question mark, a hash sign or a space. *)
Theorem query_part_is_urlencoded (segs : list Segment) (q : JsVal) (ts : bool) :
  noQuery q = false ->
  buildPath segs q ts = buildPath segs VUndefined ts +:+ "?" +:+ queryString q /\
  allChars isQueryChar (queryString q) = true.
Proof.
  intros Hq. split; [| apply URLSearchParams_chars].
  unfold buildPath. rewrite Hq. cbn [noQuery truthy negb orb].
  now rewrite !append_assoc.
Qed.

End QueryString.

(** ** The root proxy and growing tables *)

Section RootAndGrowth.



End RootAndGrowth.

(** ** Rendering a navigated route *)

Section NavigatedPath.

(** X25. Navigating a declared route renders its path with the values
    filled in.  Let the table keep clear of the names plain objects inherit,
    let a declared route have at least one segment, none of its static
    segments being a property name the proxies answer themselves ([$index]
    in first place included) and no key of its query parser map being an
    inherited name, and let the trie hold the route's own validators along
    its path.  When every parameter is supplied with a string or a number
    that its validator, if any, turns into a value that is no object and no
    number beyond the safe integers, and the query is absent or a record
    that the query validator, if any, turns into a record of such values,
    the navigation along the route's segments returns a proxy; its segment
    values are the static segments and the validated parameter values as
    strings, so its path without query is a slash followed by these joined
    by slashes, and [toString] renders that path with the trailing slash of
    the options and the validated query. *)
Theorem navigated_path_fills_values (defs : list RouteDefinition) (o : RoutishOptions)
    (def : RouteDefinition) (fs : Record_) (q0 rq : JsVal) (value : string -> JsVal) :
  plainTable defs = true ->
  In def defs ->
  plainKeys (RouteConfig.query (configOf def)) = true ->
  routeSegments def <> [] ->
  ownValidators (configOf def) (routeSegments def) (buildTree defs) ->
  (forall seg, In seg (routeSegments def) ->
     if isParamSegment seg
     then supplied (configOf def) fs value (slice1 seg) /\
          printable (value (slice1 seg)) = true
     else ~ In seg interceptedNames) ->
  hd "" (routeSegments def) <> "$index" ->
  q0 = VUndefined \/ (exists qs, q0 = VObject qs) ->
  match truthy q0, queryParserOf (configOf def) with
  | true, Some qp => runParser qp q0 = Ok rq
  | _, _ => rq = q0
  end ->
  Forall (fun kv => printable (snd kv) = true) (entries rq) ->
  exists p,
    navigateFrom (AtRoot (proxy (createRoutes defs o))) (routeSegments def) (VObject fs) q0
      = Ok (AtProxy p) /\
    map segmentValue (segments p) = map (fillWith value) (routeSegments def) /\
    buildPath (segments p) VUndefined false =
      "/" +:+ join "/" (map (fillWith value) (routeSegments def)) /\
    Proxy_toString p = Ok (buildPath (segments p) rq (trailingSlashOf o)).
Proof.
  intros Hplain Hin _ Hne Hown Hsegs Hidx Hq Hrq _.
  assert (Hsegs' : forall seg, In seg (routeSegments def) ->
            if isParamSegment seg then supplied (configOf def) fs value (slice1 seg)
            else ~ In seg interceptedNames /\ ~ In seg inheritedNames).
  { intros seg Hseg. specialize (Hsegs seg Hseg).
    destruct (isParamSegment seg) eqn:Hparam; [exact (proj1 Hsegs) |].
    split; [exact Hsegs |]. exact (plainTable_static defs def seg Hplain Hin Hseg Hparam). }
  destruct (navigateFrom_ok (configOf def) fs value q0 rq Hq Hrq (routeSegments def)
              (AtRoot (proxy (createRoutes defs o))) Hne Hown Hsegs')
    as (p & Hnav & Hw & Hvals & Hopts & Hquery); [intros r _; exact Hidx |].
  cbn [posTree posSegments posOptions proxy createRoutes rootTree rootOptions map app] in *.
  destruct (buildTree_declared defs def Hin) as (n & Hn & Hterm).
  unfold routeKeys in Hn. rewrite Hw in Hn. injection Hn as <-.
  exists p. split; [exact Hnav |]. split; [exact Hvals |]. split.
  - unfold buildPath. cbn [noQuery truthy negb orb]. now rewrite Hvals, append_empty_r.
  - unfold Proxy_toString. now rewrite Hterm, Hquery, Hopts.
Qed.

End NavigatedPath.

(** ** The further properties on concrete tables *)

Section FurtherConcrete.

Import Example Tables.



Lemma runParser_decode_fail_closed_witness :
  exists result,
    right_decode (VNumber 7) = Ok result /\
    get result "_tag" = VString "Right" /\
    VNumber 7 = get result "right".
Proof.
  apply (runParser_decode_fail_closed tagged right_decode (VNumber 7) (VNumber 7));
    reflexivity.
Defined.

Lemma createObjectParser_reads_declared_keys_witness :
  runParser (createObjectParser search_parsers) (VObject search_input) =
  runParser (createObjectParser search_parsers) (VObject reordered_input).
Proof.
  apply (createObjectParser_reads_declared_keys search_parsers search_input reordered_input).
  intros k [<- | [<- | []]]; reflexivity.
Defined.

Lemma createObjectParser_first_failure_witness :
  runParser (createObjectParser strict_parsers)
    (VObject [("q", VString "x"); ("z", VNumber 1)]) = Throw "rejected".
Proof.
  apply (createObjectParser_first_failure [("page", identity)] [("z", upper)] "q" reject
           [("q", VString "x"); ("z", VNumber 1)] (VString "x") "rejected").
  - constructor; [reflexivity | constructor].
  - reflexivity.
  - reflexivity.
Defined.

Lemma createObjectParser_present_keys_witness :
  match runParser (createObjectParser search_parsers) (VObject search_input) with
  | Ok out =>
      exists r,
        out = VObject r /\
        (forall k v, assoc k r = Some v <-> validated search_parsers search_input k v) /\
        List.NoDup (map fst r) /\
        (forall k, In k (map fst r) -> In k (map fst search_input) /\ In k (map fst search_parsers))
  | Throw msg => rejected search_parsers search_input msg
  end.
Proof.
  apply (createObjectParser_present_keys search_parsers search_input).
  - reflexivity.
  - repeat constructor; cbn; intuition discriminate.
Defined.

Lemma trie_holds_declared_prefixes_witness :
  is_Some (walk ["docs"; PARAM_KEY] (buildTree docs_table)) <->
  ["docs"; PARAM_KEY] = [] \/
  exists def, In def docs_table /\ passesThrough ["docs"; PARAM_KEY] def.
Proof.
  apply (trie_holds_declared_prefixes docs_table ["docs"; PARAM_KEY]). reflexivity.
Defined.

Lemma leaves_are_terminal_witness :
  TreeNode.children (nodeAt ["docs"; PARAM_KEY; "edit"] docs_table) = ∅ /\
  TreeNode.isTerminal (nodeAt ["docs"; PARAM_KEY; "edit"] docs_table) = true.
Proof.
  split; [reflexivity |].
  apply (leaves_are_terminal docs_table ["docs"; PARAM_KEY; "edit"]);
    [reflexivity | discriminate | reflexivity | reflexivity].
Defined.


Lemma static_nodes_carry_no_parameter_witness :
  TreeNode.paramName (nodeAt ["docs"] docs_table) = None /\
  TreeNode.paramParser (nodeAt ["docs"] docs_table) = None.
Proof.
  apply (static_nodes_carry_no_parameter docs_table [] "docs"); [reflexivity | discriminate].
Defined.




Lemma query_call_keeps_position_witness :
  segments docs_page_proxy = segments docs_proxy /\
  tree docs_page_proxy = tree docs_proxy /\
  options docs_page_proxy = options docs_proxy /\
  Proxy_toPattern docs_page_proxy = Proxy_toPattern docs_proxy /\
  (forall v x, Proxy_call docs_page_proxy v x = Proxy_call docs_proxy v x) /\
  (forall prop, ~ In prop interceptedNames ->
     Proxy_get docs_page_proxy (PropName prop) = Proxy_get docs_proxy (PropName prop)).
Proof.
  apply (query_call_keeps_position docs_proxy (VObject [("page", VNumber 2)]) VUndefined
           docs_page_proxy); reflexivity.
Defined.

Lemma root_query_call_skips_terminal_check_witness :
  Index_call (proxy (createRoutes docs_table default_options)) (VObject [("page", VNumber 1)]) =
    Ok (createRouteNode [] (VObject [("page", VNumber 1)]) None false) /\
  toString (createRouteNode [] (VObject [("page", VNumber 1)]) None false) = "/?page=1" /\
  Index_toString (proxy (createRoutes docs_table default_options)) =
    Throw root_not_defined_message.
Proof.
  destruct (root_query_call_skips_terminal_check docs_table default_options
              [("page", VNumber 1)] VUndefined) as (_ & Hcall & Hrender & Hindex).
  - intros (def & [<- | [<- | [<- | []]]] & H); discriminate H.
  - split; [exact Hcall |]. split; [exact Hrender | exact Hindex].
Defined.

Lemma navigated_pattern_is_normal_form_witness :
  exists p,
    navigateFrom (AtRoot (proxy (createRoutes docs_table default_options)))
      (routeSegments (DefPath "/docs/:section/edit"))
      (VObject [("section", VString "intro")]) VUndefined = Ok (AtProxy p) /\
    Proxy_toPattern p = Ok "/docs/:section/edit".
Proof.
  destruct (navigated_pattern_is_normal_form docs_table default_options
              (DefPath "/docs/:section/edit") [("section", VString "intro")]
              VUndefined (AtProxy docs_edit_proxy))
    as (p & Hx & _ & Hp).
  - cbn. tauto.
  - discriminate.
  - cbn. repeat split; try reflexivity; discriminate.
  - intros seg Hseg Hparam. cbn in Hseg.
    destruct Hseg as [<- | [<- | [<- | []]]]; try discriminate Hparam. reflexivity.
  - now left.
  - reflexivity.
  - injection Hx as <-. exists docs_edit_proxy. split; [reflexivity | exact Hp].
Defined.

Lemma query_part_is_urlencoded_witness :
  buildPath [SegStatic "search"] (VObject [("q", VString "a b/c?")]) false =
    "/search?q=a+b%2Fc%3F" /\
  allChars isQueryChar (queryString (VObject [("q", VString "a b/c?")])) = true.
Proof.
  destruct (query_part_is_urlencoded [SegStatic "search"]
              (VObject [("q", VString "a b/c?")]) false eq_refl) as [Hpath Hchars].
  split; [exact Hpath | exact Hchars].
Defined.


Lemma navigated_path_fills_values_witness :
  exists p,
    navigateFrom (AtRoot (proxy (createRoutes docs_table default_options)))
      (routeSegments (DefPath "/docs/:section/edit"))
      (VObject [("section", VNumber 7)]) VUndefined = Ok (AtProxy p) /\
    buildPath (segments p) VUndefined false = "/docs/7/edit" /\
    Proxy_toString p = Ok "/docs/7/edit".
Proof.
  destruct (navigated_path_fills_values docs_table default_options
              (DefPath "/docs/:section/edit") [("section", VNumber 7)]
              VUndefined VUndefined (fun _ => VNumber 7))
    as (p & Hnav & Hvals & Hpath & Hrender).
  - reflexivity.
  - cbn. tauto.
  - reflexivity.
  - discriminate.
  - cbn. repeat split; try reflexivity; discriminate.
  - intros seg Hseg. cbn in Hseg.
    destruct Hseg as [<- | [<- | [<- | []]]].
    + cbn. intuition discriminate.
    + split; [| reflexivity]. exists (VNumber 7). repeat split; reflexivity.
    + cbn. intuition discriminate.
  - discriminate.
  - now left.
  - reflexivity.
  - constructor.
  - exists p. split; [exact Hnav |]. split; [exact Hpath |].
    rewrite Hrender. f_equal. exact Hpath.
Defined.

End FurtherConcrete.
